(** * NOAA data fetch and retention: a shallow embedding of
      [noaa_data_fetch.py]

    The development follows the script top to bottom: the string helpers
    it relies on, the endpoint catalogs, the HTTP clients (plain
    [requests] calls and the [Session] mounted with a [Retry] adapter),
    [get_latest_file_url], [fetch_noaa_data] and [cleanup_old_files].

    The outside world (the remote server and the clock) is an explicit
    oracle; every wire request the script makes is recorded in a trace,
    so that statements about which requests are issued can be made. *)

From Stdlib Require Import ZArith Lia Bool Ascii String.
From stdpp Require Import base option list strings gmap.

Local Open Scope string_scope.
Local Open Scope list_scope.
Local Set Warnings "-register-all".

(** ** Python string helpers *)

Module PyStr.

(** [s.endswith(suffix)] *)
Definition endswith (s suffix : string) : bool :=
  let n := String.length s in
  let m := String.length suffix in
  (m <=? n)%nat && String.eqb (substring (n - m) m s) suffix.

(** [s.startswith(p)] *)
Definition startswith (s p : string) : bool := String.prefix p s.

(** [s.split(sep)] for a one-character separator: never empty. *)
Fixpoint split (sep : ascii) (s : string) : list string :=
  match s with
  | EmptyString => [ EmptyString ]
  | String c r =>
      if Ascii.eqb c sep then EmptyString :: split sep r
      else match split sep r with
           | [] => [ String c EmptyString ]
           | p :: ps => String c p :: ps
           end
  end.

(** [sep.join(parts)] *)
Fixpoint join (sep : string) (parts : list string) : string :=
  match parts with
  | [] => EmptyString
  | [ p ] => p
  | p :: ps => p +:+ sep +:+ join sep ps
  end.

(** [parts[:-1]] *)
Definition all_but_last (parts : list string) : list string :=
  take (length parts - 1) parts.

(** [a > b] on strings: lexicographic on character codes. *)
Definition gt (a b : string) : bool := String.ltb b a.

(** [sorted(l, reverse=True)[0]], the greatest string of a non-empty
    list; [None] stands for the [IndexError] on an empty list. *)
Fixpoint greatest_from (best : string) (l : list string) : string :=
  match l with
  | [] => best
  | x :: l' => greatest_from (if gt x best then x else best) l'
  end.

Definition greatest (l : list string) : option string :=
  match l with
  | [] => None
  | x :: l' => Some (greatest_from x l')
  end.

(** [os.path.join(a, b)] on a POSIX host. *)
Definition os_path_join (a b : string) : string :=
  if startswith b "/" then b
  else if String.eqb a "" || endswith a "/" then a +:+ b
  else a +:+ "/" +:+ b.

End PyStr.

(** ** Parsed JSON documents *)

Inductive json : Type :=
| JNull
| JBool (b : bool)
| JNum (n : Z)
| JStr (s : string)
| JArr (items : list json)
| JObj (fields : list (string * json)).

Module PyJson.

(** Key lookup in a parsed object (a Python [dict], keys unique). *)
Fixpoint assoc (k : string) (fields : list (string * json)) : option json :=
  match fields with
  | [] => None
  | (k', v) :: rest => if String.eqb k k' then Some v else assoc k rest
  end.

(** [d.get(k, default)]: [None] stands for the [AttributeError] raised
    when [d] is not a dict. *)
Definition get (d : json) (k : string) (default : json) : option json :=
  match d with
  | JObj fields => Some (match assoc k fields with Some v => v | None => default end)
  | _ => None
  end.

(** [f[k]] for a string key [k]: [None] stands for the [KeyError] or
    [TypeError] raised when [f] has no such key or is not a dict. *)
Definition subscript (f : json) (k : string) : option json :=
  match f with
  | JObj fields => assoc k fields
  | _ => None
  end.

(** The integer a number or a boolean stands for in a comparison. *)
Definition as_int (j : json) : option Z :=
  match j with
  | JNum n => Some n
  | JBool b => Some (if b then 1%Z else 0%Z)
  | _ => None
  end.

End PyJson.

(** ** The endpoint catalogs *)

(** An endpoint target is a Python [str] or a Python [list] of [str]. *)
Inductive endpoint : Type :=
| Path (p : string)
| PathList (ps : list string).

(** A catalog is a [dict] literal: its items in insertion order. *)
Definition catalog : Type := list (string * endpoint).

Fixpoint catalog_lookup (k : string) (c : catalog) : option endpoint :=
  match c with
  | [] => None
  | (k', e) :: rest => if String.eqb k k' then Some e else catalog_lookup k rest
  end.

Definition NOAA_BASE_URL : string := "https://services.swpc.noaa.gov/json/".



(** Every target of the tertiary catalog is a [str]. *)
Definition TERTIARY_PATHS : list (string * string) :=
  [ ("electric_field_us_canada", "lists/rgeojson/US-Canada-1D/");
    ("electric_field_interMag", "lists/rgeojson/InterMagEarthScope/");
    ("differential_protons_1d", "goes/primary/differential-protons-1-day.json");
    ("differential_protons_3d", "goes/primary/differential-protons-3-day.json");
    ("differential_electrons_1d", "goes/primary/differential-electrons-1-day.json");
    ("differential_electrons_3d", "goes/primary/differential-electrons-3-day.json");
    ("ace_magnetic_field_1h", "ace/mag/ace_mag_1h.json");
    ("ace_epam_5m", "ace/epam/ace_epam_5m.json") ].


(** [TERTIARY_ENDPOINTS[key]]: [None] stands for the [KeyError]. *)
Fixpoint tertiary_path_in (key : string) (c : list (string * string)) : option string :=
  match c with
  | [] => None
  | (k', p) :: rest => if String.eqb key k' then Some p else tertiary_path_in key rest
  end.

Definition tertiary_path (key : string) : option string :=
  tertiary_path_in key TERTIARY_PATHS.

Definition DATA_DIR : string := "noaa_data".

(** ** The filename pattern of the manual listing scan

    [re.findall(r'(\d{8}T\d{6}-15-Efield-[\w.-]+\.json)', text)] on
    ASCII text.  The only choice the regex engine has is where the greedy
    class run stops: at the last [.json] inside it. *)

Module Efield.

Definition code (c : ascii) : nat := nat_of_ascii c.

Definition is_digit (c : ascii) : bool :=
  (48 <=? code c)%nat && (code c <=? 57)%nat.

Definition is_word (c : ascii) : bool :=
  is_digit c
  || ((65 <=? code c)%nat && (code c <=? 90)%nat)
  || ((97 <=? code c)%nat && (code c <=? 122)%nat)
  || (code c =? 95)%nat.

(** the class [[\w.-]] *)
Definition in_class (c : ascii) : bool :=
  is_word c || Ascii.eqb c "." || Ascii.eqb c "-".

(** [\d{n}]: the rest of the text after [n] digits. *)
Fixpoint digits (n : nat) (s : string) : option string :=
  match n with
  | O => Some s
  | S k =>
      match s with
      | String c r => if is_digit c then digits k r else None
      | EmptyString => None
      end
  end.

Fixpoint skip (n : nat) (s : string) : string :=
  match n, s with
  | S k, String _ r => skip k r
  | _, _ => s
  end.

Definition literal (p s : string) : option string :=
  if String.prefix p s then Some (skip (String.length p) s) else None.

(** Length of the longest prefix of [s] made of class characters
    followed by [.json]. *)
Fixpoint tail_len (s : string) : option nat :=
  match s with
  | EmptyString => None
  | String c r =>
      match (if in_class c then tail_len r else None) with
      | Some n => Some (S n)
      | None => if String.prefix ".json" s then Some 5%nat else None
      end
  end.

(** Length of the match starting at the head of [s], if any. *)
Definition match_at (s : string) : option nat :=
  r1 ← digits 8 s;
  r2 ← literal "T" r1;
  r3 ← digits 6 r2;
  r4 ← literal "-15-Efield-" r3;
  match r4 with
  | String c r5 =>
      if in_class c then n ← tail_len r5; Some (8 + 1 + 6 + 11 + 1 + n)%nat
      else None
  | EmptyString => None
  end.

(** Left-to-right scan for non-overlapping matches; [busy] counts the
    characters still covered by the previous match. *)
Fixpoint findall_from (busy : nat) (s : string) : list string :=
  match s with
  | EmptyString => []
  | String _ r =>
      match busy with
      | S k => findall_from k r
      | O =>
          match match_at s with
          | Some n => substring 0 n s :: findall_from (n - 1) r
          | None => findall_from 0 r
          end
      end
  end.

Definition findall (s : string) : list string := findall_from 0 s.

End Efield.

(** ** The world outside the script *)

Inductive method : Type := GET | HEAD.

(** What the script reads of a response: [status_code], [text], and the
    document [json()] returns ([None] when the body does not parse). *)
Record response : Type := {
  status_code : Z;
  text : string;
  json_body : option json
}.

(** One attempt on the wire either brings a response back or fails
    (connection error, timeout). *)
Inductive wire : Type :=
| Answer (r : response)
| Failure.

(** [http n m url] is what the [n]-th wire attempt of the run meets when
    it sends [m url]; [utcnow_stamp n] is
    [datetime.utcnow().strftime("%Y%m%d%H%M%S")] read after [n] attempts.
    The last two fields are what the embedding leaves to the Python
    runtime: the text an f-string gives a JSON value that is not a
    string, and [a > b] on operands that are neither two numbers nor two
    strings ([None] when it raises [TypeError]). *)
Record world : Type := {
  http : nat -> method -> string -> wire;
  utcnow_stamp : nat -> string;
  format_other : json -> string;
  gt_other : json -> json -> option bool
}.

(** ** Exceptions *)

(** The subclasses of [requests.exceptions.RequestException] the script
    can meet.  [JSONDecodeError] is [requests.exceptions.JSONDecodeError],
    raised by [Response.json()]; it derives from [InvalidJSONError], a
    [RequestException], since requests 2.27. *)
Inductive request_exception : Type :=
| ConnectionError
| RetryError
| HTTPError (status : Z)
| JSONDecodeError.

Inductive exn : Type :=
| RequestException (e : request_exception)
| KeyError (key : string).

(** ** Logging *)

Inductive level : Type := INFO | WARNING | ERROR.

Inductive message : Type :=
| Found_latest_file_from_index (latest_file : string)
| No_index_file_available
| Found_latest_file_alias (latest_url : string)
| No_latest_alias_found
| Attempting_manual_filename_discovery (directory_key : string)
| Manually_discovered_latest_file (latest_file : string)
| Unable_to_list_files
| No_latest_file_found (directory_key : string)
| All_endpoint_variations_failed (key : string)
| Successfully_fetched (key category : string)
| Error_fetching (key : string) (e : request_exception).

(** ** The state a run threads through *)

Record state : Type := {
  trace : list (method * string);       (* wire attempts, oldest first *)
  fetched_data : gmap string json;      (* the dict [fetched_data] *)
  written : list (string * json);       (* files written, oldest first *)
  log : list (level * message)          (* log records, oldest first *)
}.

Definition initial_state : state :=
  {| trace := []; fetched_data := ∅; written := []; log := [] |}.

Definition record_attempt (m : method) (url : string) (st : state) : state :=
  {| trace := trace st ++ [ (m, url) ]; fetched_data := fetched_data st;
     written := written st; log := log st |}.

Definition logging (l : level) (msg : message) (st : state) : state :=
  {| trace := trace st; fetched_data := fetched_data st;
     written := written st; log := log st ++ [ (l, msg) ] |}.

Definition store (key : string) (data : json) (st : state) : state :=
  {| trace := trace st; fetched_data := <[ key := data ]> (fetched_data st);
     written := written st; log := log st |}.

Definition write_file (file_path : string) (data : json) (st : state) : state :=
  {| trace := trace st; fetched_data := fetched_data st;
     written := written st ++ [ (file_path, data) ]; log := log st |}.

Definition fresh_dict (st : state) : state :=
  {| trace := trace st; fetched_data := ∅; written := written st; log := log st |}.

(** A call either returns a value or raises, in both cases with the
    state it leaves behind. *)
Inductive outcome (A : Type) : Type :=
| Returns (a : A) (st : state)
| Raises (e : exn) (st : state).
Arguments Returns {A} a st.
Arguments Raises {A} e st.

(** ** The HTTP clients *)

(** One attempt on the wire. *)
Definition send (w : world) (m : method) (url : string) (st : state) : wire * state :=
  (http w (length (trace st)) m url, record_attempt m url st).

(** [requests.get(url)] and [requests.head(url)]: the module-level calls
    use a throw-away session with the default adapter, which does not
    retry.  [Failure] is the exception the call raises. *)
Definition requests_get (w : world) (url : string) (st : state) : wire * state :=
  send w GET url st.

Definition requests_head (w : world) (url : string) (st : state) : wire * state :=
  send w HEAD url st.

(** [Retry(total=5, backoff_factor=1, status_forcelist=[429, 500, 502, 503, 504])] *)
Definition retry_total : nat := 5.
Definition status_forcelist : list Z := [ 429; 500; 502; 503; 504 ]%Z.

Definition is_retry (status : Z) : bool :=
  bool_decide (status ∈ status_forcelist).

(** A request through the session whose adapter carries the [Retry]
    above: [retries] is how many retries are left.  A failed attempt or
    an answer with a status of the force list is retried while retries
    are left; with none left the adapter raises ([ConnectionError] for a
    failure, [RetryError] for a status).  The waits between attempts are
    not part of the embedding. *)
Fixpoint session_send (w : world) (retries : nat) (m : method) (url : string)
    (st : state) : (request_exception + response) * state :=
  let '(a, st1) := send w m url st in
  match a with
  | Answer r =>
      if is_retry (status_code r) then
        match retries with
        | O => (inl RetryError, st1)
        | S k => session_send w k m url st1
        end
      else (inr r, st1)
  | Failure =>
      match retries with
      | O => (inl ConnectionError, st1)
      | S k => session_send w k m url st1
      end
  end.

(** [session.get(url, timeout=10)] *)
Definition session_get (w : world) (url : string) (st : state)
    : (request_exception + response) * state :=
  session_send w retry_total GET url st.

(** [response.raise_for_status()] *)
Definition raise_for_status (r : response) : request_exception + response :=
  if ((400 <=? status_code r) && (status_code r <? 600))%Z
  then inl (HTTPError (status_code r))
  else inr r.

(** [response.json()] *)
Definition response_json (r : response) : request_exception + json :=
  match json_body r with
  | Some data => inr data
  | None => inl JSONDecodeError
  end.

(** Sequencing of steps that may raise a [RequestException]. *)
Definition and_then {A B : Type} (r : request_exception + A)
    (f : A -> request_exception + B) : request_exception + B :=
  match r with
  | inl e => inl e
  | inr a => f a
  end.

(** ** [get_latest_file_url] *)

(** [a > b] on parsed JSON values, [None] for a [TypeError]. *)
Definition py_gt (w : world) (a b : json) : option bool :=
  match PyJson.as_int a, PyJson.as_int b with
  | Some x, Some y => Some (y <? x)%Z
  | _, _ =>
      match a, b with
      | JStr s, JStr t => Some (PyStr.gt s t)
      | _, _ => gt_other w a b
      end
  end.

(** [max(files, key=lambda f: f['timestamp'])]: the first item whose key
    no other item exceeds.  [None] stands for any exception: an empty
    list, an item without the key, keys that do not compare. *)
Fixpoint max_from (w : world) (best best_key : json) (files : list json) : option json :=
  match files with
  | [] => Some best
  | f :: rest =>
      k ← PyJson.subscript f "timestamp";
      b ← py_gt w k best_key;
      if b : bool then max_from w f k rest else max_from w best best_key rest
  end.

Definition max_by_timestamp (w : world) (files : list json) : option json :=
  match files with
  | [] => None
  | f :: rest => k ← PyJson.subscript f "timestamp"; max_from w f k rest
  end.

(** [max(response.json().get("files", []), key=...)['filename']].
    Iterating anything but a list here ends in an exception: a dict or a
    string yields strings, which have no ['timestamp'], and [max] of an
    empty iterable raises. *)
Definition index_latest (w : world) (r : response) : option json :=
  doc ← json_body r;
  files ← PyJson.get doc "files" (JArr []);
  match files with
  | JArr items =>
      latest ← max_by_timestamp w items; PyJson.subscript latest "filename"
  | _ => None
  end.

(** The text an f-string gives a parsed value. *)
Definition py_format (w : world) (j : json) : string :=
  match j with
  | JStr s => s
  | _ => format_other w j
  end.

(** Strategy 1: the directory index. *)
Definition index_lookup (w : world) (base_url directory_path : string) (st : state)
    : option string * state :=
  let index_url := base_url +:+ directory_path +:+ "index.json" in
  let '(a, st1) := requests_get w index_url st in
  match a with
  | Answer r =>
      if (status_code r =? 200)%Z then
        match index_latest w r with
        | Some latest_file =>
            let name := py_format w latest_file in
            (Some (base_url +:+ directory_path +:+ name),
             logging INFO (Found_latest_file_from_index name) st1)
        | None => (None, logging WARNING No_index_file_available st1)
        end
      else (None, st1)
  | Failure => (None, logging WARNING No_index_file_available st1)
  end.

(** Strategy 2: the [latest.json] alias, probed with a HEAD. *)
Definition alias_probe (w : world) (base_url directory_path : string) (st : state)
    : option string * state :=
  let latest_url := base_url +:+ directory_path +:+ "latest.json" in
  let '(a, st1) := requests_head w latest_url st in
  match a with
  | Answer r =>
      if (status_code r =? 200)%Z
      then (Some latest_url, logging INFO (Found_latest_file_alias latest_url) st1)
      else (None, st1)
  | Failure => (None, logging WARNING No_latest_alias_found st1)
  end.

(** Strategy 3: scan the directory listing for file names. *)
Definition manual_scan (w : world) (base_url directory_path directory_key : string)
    (st : state) : option string * state :=
  let st0 := logging INFO (Attempting_manual_filename_discovery directory_key) st in
  let list_url := base_url +:+ directory_path in
  let '(a, st1) := requests_get w list_url st0 in
  match a with
  | Answer r =>
      if (status_code r =? 200)%Z then
        match PyStr.greatest (Efield.findall (text r)) with
        | Some latest_file =>
            (Some (base_url +:+ directory_path +:+ latest_file),
             logging INFO (Manually_discovered_latest_file latest_file) st1)
        | None => (None, st1)
        end
      else (None, st1)
  | Failure => (None, logging ERROR Unable_to_list_files st1)
  end.

Definition get_latest_file_url (w : world) (base_url directory_key : string)
    (st : state) : outcome (option string) :=
  match tertiary_path directory_key with
  | None => Raises (KeyError directory_key) st
  | Some directory_path =>
      match index_lookup w base_url directory_path st with
      | (Some url, st1) => Returns (Some url) st1
      | (None, st1) =>
          match alias_probe w base_url directory_path st1 with
          | (Some url, st2) => Returns (Some url) st2
          | (None, st2) =>
              match manual_scan w base_url directory_path directory_key st2 with
              | (Some url, st3) => Returns (Some url) st3
              | (None, st3) =>
                  Returns None (logging ERROR (No_latest_file_found directory_key) st3)
              end
          end
      end
  end.

(** ** [fetch_noaa_data] *)

(** The inner loop over a list of alternates: the URL it leaves in [url]
    when it breaks, [None] when it runs into its [else] clause. *)
Fixpoint try_alternates (w : world) (endpoint : list string) (st : state)
    : option string * state :=
  match endpoint with
  | [] => (None, st)
  | ep :: rest =>
      let url := NOAA_BASE_URL +:+ ep in
      let '(r, st1) := session_get w url st in
      match and_then r raise_for_status with
      | inr _ => (Some url, st1)
      | inl _ => try_alternates w rest st1
      end
  end.

(** The [try] block shared by the three shapes of endpoint. *)
Definition fetch_url (w : world) (category key url : string) (st : state) : state :=
  let '(r, st1) := session_get w url st in
  match and_then (and_then r raise_for_status) response_json with
  | inr data =>
      let st2 := store key data st1 in
      let timestamp := utcnow_stamp w (length (trace st2)) in
      let file_path :=
        PyStr.os_path_join DATA_DIR
          (category +:+ "_" +:+ key +:+ "_" +:+ timestamp +:+ ".json") in
      logging INFO (Successfully_fetched key category) (write_file file_path data st2)
  | inl e => logging ERROR (Error_fetching key e) st1
  end.

(** The [if]/[elif]/[else] chain that opens an iteration of the loop
    over [data_endpoints.items()]: the URL it assigns to [url], or [None]
    when it ends in [continue]. *)
Definition resolve_endpoint (w : world) (key : string) (endpoint : endpoint)
    (st : state) : outcome (option string) :=
  match endpoint with
  | PathList alternates =>
      match try_alternates w alternates st with
      | (Some url, st1) => Returns (Some url) st1
      | (None, st1) =>
          Returns None (logging ERROR (All_endpoint_variations_failed key) st1)
      end
  | Path p =>
      if PyStr.endswith p "/" then
        match get_latest_file_url w NOAA_BASE_URL key st with
        | Raises e st1 => Raises e st1
        | Returns None st1 => Returns None st1
        | Returns (Some url) st1 =>
            if String.eqb url "" then Returns None st1 else Returns (Some url) st1
        end
      else Returns (Some (NOAA_BASE_URL +:+ p)) st
  end.

(** One iteration of the loop over [data_endpoints.items()]. *)
Definition fetch_endpoint (w : world) (category key : string) (endpoint : endpoint)
    (st : state) : outcome unit :=
  match resolve_endpoint w key endpoint st with
  | Returns (Some url) st1 => Returns tt (fetch_url w category key url st1)
  | Returns None st1 => Returns tt st1
  | Raises e st1 => Raises e st1
  end.

Fixpoint fetch_loop (w : world) (category : string) (items : catalog) (st : state)
    : outcome unit :=
  match items with
  | [] => Returns tt st
  | (key, endpoint) :: rest =>
      match fetch_endpoint w category key endpoint st with
      | Returns _ st1 => fetch_loop w category rest st1
      | Raises e st1 => Raises e st1
      end
  end.

(** [fetch_noaa_data(data_endpoints, category)], started in state [st]
    (what earlier calls left on the wire, on disk and in the log). *)
Definition fetch_noaa_data (w : world) (data_endpoints : catalog) (category : string)
    (st : state) : outcome (gmap string json) :=
  match fetch_loop w category data_endpoints (fresh_dict st) with
  | Returns _ st1 => Returns (fetched_data st1) st1
  | Raises e st1 => Raises e st1
  end.

(** ** [cleanup_old_files] *)

(** [l.sort(key=key, reverse=True)]: a stable sort, greatest key first;
    items with equal keys keep their order. *)
Section StableSort.
Context {A : Type} (key : A -> Z).

Fixpoint insert_desc (x : A) (l : list A) : list A :=
  match l with
  | [] => [ x ]
  | y :: l' => if (key y <=? key x)%Z then x :: y :: l' else y :: insert_desc x l'
  end.

Definition sort_desc (l : list A) : list A := foldr insert_desc [] l.
End StableSort.

(** What the sweep reads of a directory entry: its name, its
    modification time as the naive datetime
    [datetime.fromtimestamp(os.stat(path).st_mtime)], in microseconds,
    and whether [os.remove] succeeds on it (it raises [OSError]
    otherwise).  The sweep compares [file_time] with [cutoff_time] as
    naive datetimes, and so does the embedding; how either relates to
    the wall clock of another time zone is not part of it. *)
Record file_entry : Type := {
  filename : string;
  file_time : Z;
  removable : bool
}.

(** The tuples [(filename, file_path, file_time)] kept per category. *)
Definition file_tuple : Type := string * string * Z.
Definition tuple_path (t : file_tuple) : string := snd (fst t).
Definition tuple_time (t : file_tuple) : Z := snd t.

(** The dict [files_by_category], keys in insertion order. *)
Definition groups : Type := list (string * list file_tuple).

(** [if category not in d: d[category] = []] then [d[category].append(t)] *)
Fixpoint group_append (category : string) (t : file_tuple) (d : groups) : groups :=
  match d with
  | [] => [ (category, [ t ]) ]
  | (c, l) :: rest =>
      if String.eqb c category then (c, l ++ [ t ]) :: rest
      else (c, l) :: group_append category t rest
  end.

(** [timedelta(hours=h)] in microseconds. *)
Definition timedelta_hours (h : Z) : Z := (h * 3600 * 1000000)%Z.

(** [cutoff_time = datetime.utcnow() - timedelta(hours=max_age_hours)];
    [utcnow] is the naive datetime [datetime.utcnow()] in microseconds. *)
Definition cutoff_time (utcnow max_age_hours : Z) : Z :=
  (utcnow - timedelta_hours max_age_hours)%Z.

(** The category of a file name: [None] when it has fewer than three
    underscore-separated parts. *)
Definition category_of (name : string) : option string :=
  let parts := PyStr.split "_" name in
  if (3 <=? length parts)%nat then Some (PyStr.join "_" (PyStr.all_but_last parts))
  else None.

(** One iteration of the first loop, over [os.listdir(data_dir)]. *)
Definition scan_file (data_dir : string) (cutoff : Z)
    (acc : groups * list string) (f : file_entry) : groups * list string :=
  let '(files_by_category, files_to_delete) := acc in
  if negb (PyStr.endswith (filename f) ".json") then acc
  else
    let file_path := PyStr.os_path_join data_dir (filename f) in
    let files_by_category :=
      match category_of (filename f) with
      | Some category =>
          group_append category (filename f, file_path, file_time f) files_by_category
      | None => files_by_category
      end in
    let files_to_delete :=
      if (file_time f <? cutoff)%Z then files_to_delete ++ [ file_path ]
      else files_to_delete in
    (files_by_category, files_to_delete).

Definition scan (data_dir : string) (cutoff : Z) (listing : list file_entry)
    : groups * list string :=
  foldl (scan_file data_dir cutoff) ([], []) listing.

(** [if file_path not in files_to_delete: files_to_delete.append(file_path)] *)
Definition mark (files_to_delete : list string) (t : file_tuple) : list string :=
  if bool_decide (tuple_path t ∈ files_to_delete) then files_to_delete
  else files_to_delete ++ [ tuple_path t ].

(** One iteration of the second loop, over [files_by_category.items()].
    [max_files_per_category] is a count of files, a natural number (a
    negative [int], for which the slice would count from the end of the
    list, is outside the embedding). *)
Definition prune_group (max_files_per_category : nat)
    (files_to_delete : list string) (entry : string * list file_tuple) : list string :=
  let files := sort_desc tuple_time (snd entry) in
  if (max_files_per_category <? length files)%nat
  then foldl mark files_to_delete (drop max_files_per_category files)
  else files_to_delete.

(** The list [files_to_delete] when the third loop starts. *)
Definition files_to_delete (data_dir : string) (listing : list file_entry)
    (utcnow max_age_hours : Z) (max_files_per_category : nat) : list string :=
  let '(files_by_category, marked) :=
    scan data_dir (cutoff_time utcnow max_age_hours) listing in
  foldl (prune_group max_files_per_category) marked files_by_category.

(** [os.remove(file_path)]: [None] stands for the [OSError]. *)
Definition os_remove (data_dir file_path : string) (listing : list file_entry)
    : option (list file_entry) :=
  let here f := String.eqb (PyStr.os_path_join data_dir (filename f)) file_path in
  if existsb (fun f => here f && removable f) listing
  then Some (filter (fun f => here f = false) listing)
  else None.

(** What a sweep leaves: the directory, the count it logs, and the paths
    whose removal failed (each logged as an error). *)
Record sweep : Type := {
  remaining : list file_entry;
  deleted_count : nat;
  failed : list string
}.

Definition remove_one (data_dir : string) (s : sweep) (file_path : string) : sweep :=
  match os_remove data_dir file_path (remaining s) with
  | Some listing =>
      {| remaining := listing; deleted_count := S (deleted_count s); failed := failed s |}
  | None =>
      {| remaining := remaining s; deleted_count := deleted_count s;
         failed := failed s ++ [ file_path ] |}
  end.

(** [cleanup_old_files(data_dir, max_age_hours, max_files_per_category)]
    run at [utcnow] on a directory holding [listing] (in the order
    [os.listdir] gives). *)
Definition cleanup_old_files (data_dir : string) (listing : list file_entry)
    (utcnow max_age_hours : Z) (max_files_per_category : nat) : sweep :=
  foldl (remove_one data_dir)
    {| remaining := listing; deleted_count := 0; failed := [] |}
    (files_to_delete data_dir listing utcnow max_age_hours max_files_per_category).

(** The same call when [data_dir] may be missing ([None]): the early
    [return] leaves everything as it is. *)
Definition cleanup_if_exists (data_dir : string) (dir : option (list file_entry))
    (utcnow max_age_hours : Z) (max_files_per_category : nat) : option sweep :=
  match dir with
  | None => None
  | Some listing =>
      Some (cleanup_old_files data_dir listing utcnow max_age_hours max_files_per_category)
  end.

(** ** The driver

    The block under [if __name__ == "__main__"].  The module has created
    [DATA_DIR] when it was loaded ([os.makedirs(DATA_DIR, exist_ok=True)]),
    so the sweep finds the directory; [listing] is what it holds and
    [utcnow] what the clock reads during the sweep. *)







(** * Vocabulary of the statements *)

(** ** Predicates on states and requests *)

(** [same_store st st']: the dict [fetched_data] and the files on disk
    are the same in both states. *)
Definition same_store (st st' : state) : Prop :=
  fetched_data st' = fetched_data st ∧ written st' = written st.

(** [f['timestamp']], the key [max] compares. *)
Definition timestamp (f : json) : option json := PyJson.subscript f "timestamp".


(** ** Predicates on directory entries *)


(** [filename.endswith('.json')] *)
Definition is_json (f : file_entry) : Prop :=
  PyStr.endswith (filename f) ".json" = true.

(** [file_path = os.path.join(data_dir, filename)] *)
Definition path_in (data_dir : string) (f : file_entry) : string :=
  PyStr.os_path_join data_dir (filename f).

(** The tuple the first loop appends for an entry. *)
Definition tuple_in (data_dir : string) (f : file_entry) : file_tuple :=
  (filename f, path_in data_dir f, file_time f).

(** The age test of the first loop: [file_time < cutoff_time]. *)
Definition is_old (cutoff : Z) (f : file_entry) : Prop := (file_time f < cutoff)%Z.

#[global] Instance is_json_dec f : Decision (is_json f) :=
  decide (PyStr.endswith (filename f) ".json" = true).
#[global] Instance is_old_dec cutoff f : Decision (is_old cutoff f) :=
  decide (file_time f < cutoff)%Z.

(** The paths the age test marks, in listing order. *)
Definition aged (data_dir : string) (cutoff : Z) (listing : list file_entry) : list string :=
  path_in data_dir <$> filter (λ f, is_json f ∧ is_old cutoff f) listing.

(** The files of a category, in listing order. *)
Definition members (category : string) (listing : list file_entry) : list file_entry :=
  filter (λ f, is_json f ∧ category_of (filename f) = Some category) listing.

(** [files_by_category.get(category, [])] *)
Fixpoint group_of (category : string) (g : groups) : list file_tuple :=
  match g with
  | [] => []
  | (c, ts) :: rest => if String.eqb c category then ts else group_of category rest
  end.

(** The effect of one iteration of the first loop on the dict. *)
Definition add_to_groups (data_dir : string) (g : groups) (f : file_entry) : groups :=
  if negb (PyStr.endswith (filename f) ".json") then g
  else match category_of (filename f) with
       | Some category => group_append category (tuple_in data_dir f) g
       | None => g
       end.

(** An entry the third loop removes: its path is on the list and
    [os.remove] succeeds on it. *)
Definition doomed (data_dir : string) (ps : list string) (f : file_entry) : Prop :=
  path_in data_dir f ∈ ps ∧ removable f = true.

#[global] Instance doomed_dec data_dir ps f : Decision (doomed data_dir ps f) :=
  decide (path_in data_dir f ∈ ps ∧ removable f = true).

#[global] Instance file_entry_eq_dec : EqDecision file_entry.
Proof. solve_decision. Defined.

(** ** Servers *)

Definition quiet_runtime (serve : nat → method → string → wire) : world :=
  {| http := serve;
     utcnow_stamp := λ _, "20250220000000";
     format_other := λ _, "";
     gt_other := λ _ _, None |}.

Definition missing_page : response :=
  {| status_code := 404; text := ""; json_body := None |}.
Definition busy_page : response :=
  {| status_code := 503; text := ""; json_body := None |}.
Definition empty_page : response :=
  {| status_code := 200; text := ""; json_body := None |}.
Definition kp_page : response :=
  {| status_code := 200; text := "[3]"; json_body := Some (JArr [ JNum 3 ]) |}.

(** A server that answers 404 to everything. *)
Definition always_404 : world := quiet_runtime (λ _ _ _, Answer missing_page).





(** A server without index and listing whose alias is busy (503) once,
    at the second request of the run, and answers 200 afterwards. *)
Definition alias_busy_once : world :=
  quiet_runtime (λ n m _,
    match m with
    | GET => Answer missing_page
    | HEAD => if (n =? 1)%nat then Answer busy_page else Answer empty_page
    end).


(** A server that is busy (503) for the first three requests and then
    serves the document. *)
Definition busy_three_times : world :=
  quiet_runtime (λ n _ _, if (n <? 3)%nat then Answer busy_page else Answer kp_page).

Definition efield_listing : response :=
  {| status_code := 200;
     text := "<a>20240101T000000-15-Efield-x.json</a> <a>20240102T000000-15-Efield-x.json</a>";
     json_body := None |}.

(** A server without index and alias whose directory listing names two
    files. *)
Definition listing_only : world :=
  quiet_runtime (λ _ m url,
    if PyStr.endswith url "/" then Answer efield_listing else Answer missing_page).

Definition kp_alternates : list string :=
  [ "geospace/geospce_pred_est_kp_7_day.json"; "geospace/geosapce_pred_est_kp_7_day.json" ].

(** ** Directories *)

Ltac by_evaluation := apply (bool_decide_unpack _); vm_compute; exact I.

(** One hour of [timedelta], in microseconds. *)
Definition hour : Z := 3600000000.


Definition xray_1h : file_entry :=
  {| filename := "primary_xray_20250220230000.json";
     file_time := 99 * hour; removable := true |}.
Definition xray_2h : file_entry :=
  {| filename := "primary_xray_20250220220000.json";
     file_time := 98 * hour; removable := true |}.
Definition xray_3h : file_entry :=
  {| filename := "primary_xray_20250220210000.json";
     file_time := 97 * hour; removable := true |}.
Definition kp_30h : file_entry :=
  {| filename := "secondary_kp_20250219180000.json";
     file_time := 70 * hour; removable := true |}.
Definition stray_30h : file_entry :=
  {| filename := "latest.json"; file_time := 70 * hour; removable := true |}.
Definition readme : file_entry :=
  {| filename := "README.txt"; file_time := 0; removable := true |}.

(** Three snapshots of one series, an old snapshot of another, an old
    [.json] file whose name has no category, and a text file. *)
Definition cache : list file_entry :=
  [ xray_2h; readme; kp_30h; xray_1h; stray_30h; xray_3h ].

(** Three snapshots of category [primary_x]: one hour, two hours and
    thirty hours old. *)
Definition three_snapshots : list file_entry :=
  [ {| filename := "primary_x_A.json"; file_time := 99 * hour; removable := true |};
    {| filename := "primary_x_B.json"; file_time := 98 * hour; removable := true |};
    {| filename := "primary_x_C.json"; file_time := 70 * hour; removable := true |} ]%Z.

(** ** Further vocabulary *)

(** The state a call leaves, whether it returns or raises. *)
Definition final_state {A : Type} (o : outcome A) : state :=
  match o with
  | Returns _ st => st
  | Raises _ st => st
  end.

(** [n] attempts on the wire for the same request. *)
Fixpoint attempts (n : nat) (m : method) (url : string) (st : state) : state :=
  match n with
  | O => st
  | S k => attempts k m url (record_attempt m url st)
  end.

(** An attempt the adapter retries: it failed, or its answer carries a
    status of the force list. *)
Definition retried (a : wire) : Prop :=
  match a with
  | Failure => True
  | Answer r => is_retry (status_code r) = true
  end.

(** What the adapter raises when the last attempt it is allowed was [a]. *)
Definition exhausted (a : wire) : request_exception :=
  match a with
  | Failure => ConnectionError
  | Answer _ => RetryError
  end.



(** The name and the path of the file [fetch_noaa_data] writes. *)
Definition snapshot_name (category key stamp : string) : string :=
  category +:+ "_" +:+ key +:+ "_" +:+ stamp +:+ ".json".





(** No underscore in a string. *)
Definition no_underscore (s : string) : Prop :=
  "_"%char ∉ list_ascii_of_string s.

(** The requests of the resolver for a directory, in the order it makes
    them. *)
Definition resolver_requests (base_url directory_path : string) : list (method * string) :=
  [ (GET, base_url +:+ directory_path +:+ "index.json");
    (HEAD, base_url +:+ directory_path +:+ "latest.json");
    (GET, base_url +:+ directory_path) ].

(** ** Vocabulary of the further properties *)

(** [grows st st' n]: the trace of [st'] extends the trace of [st] by at
    most [n] attempts. *)
Definition grows (st st' : state) (n : nat) : Prop :=
  ∃ extra, trace st' = trace st ++ extra ∧ (length extra ≤ n)%nat.



Definition can_remove (data_dir : string) (listing : list file_entry) (p : string) : Prop :=
  Exists (λ f, path_in data_dir f = p ∧ removable f = true) listing.

Definition bare_index : response :=
  {| status_code := 200; text := "{}"; json_body := Some (JObj []) |}.

Definition bare_index_and_alias : world :=
  quiet_runtime (λ _ m _,
    match m with
    | GET => Answer bare_index
    | HEAD => Answer empty_page
    end).

Definition locked_cache : list file_entry :=
  [ xray_2h;
    {| filename := "secondary_kp_20250219180000.json"; file_time := 70 * hour;
       removable := false |};
    stray_30h ]%Z.

(** * Properties of the fetch side *)

(** ** What a step leaves untouched *)

Lemma same_store_refl st : same_store st st.
Proof. by split. Qed.

Lemma same_store_trans st1 st2 st3 :
  same_store st1 st2 → same_store st2 st3 → same_store st1 st3.
Proof. intros [? ?] [? ?]; split; congruence. Qed.

Lemma same_store_logging l msg st : same_store st (logging l msg st).
Proof. by split. Qed.

Lemma same_store_send w m url st : same_store st (send w m url st).2.
Proof. by split. Qed.

Create HintDb fetch.
#[local] Hint Resolve same_store_refl same_store_logging same_store_send : fetch.

Lemma session_send_store w retries m url st :
  same_store st (session_send w retries m url st).2.
Proof.
  revert st. induction retries as [|k IH]; intros st; simpl;
    destruct (http w (length (trace st)) m url) as [r|];
    try destruct (is_retry (status_code r)); simpl;
    try (by split);
    (eapply same_store_trans; [|apply IH]; by split).
Qed.

(** A request through the session makes between one and
    [retries + 1] attempts, all of them for the same URL. *)
Lemma session_send_trace w retries m url st :
  ∃ n, (1 ≤ n ≤ S retries)%nat
       ∧ trace (session_send w retries m url st).2 = trace st ++ replicate n (m, url).
Proof.
  revert st. induction retries as [|k IH]; intros st; simpl.
  - exists 1%nat. split; [lia|].
    destruct (http w (length (trace st)) m url) as [r|];
      try destruct (is_retry (status_code r)); reflexivity.
  - destruct (http w (length (trace st)) m url) as [r|];
      try destruct (is_retry (status_code r)); simpl;
      try (exists 1%nat; split; [lia|reflexivity]);
      (destruct (IH (record_attempt m url st)) as (n & Hn & ->);
       exists (S n); split; [lia|]; simpl; by rewrite <- app_assoc).
Qed.

Lemma try_alternates_store w alternates st :
  same_store st (try_alternates w alternates st).2.
Proof.
  revert st. induction alternates as [|ep rest IH]; intros st; simpl; [by split|].
  unfold session_get.
  pose proof (session_send_store w retry_total GET (NOAA_BASE_URL +:+ ep) st) as Hs.
  destruct (session_send w retry_total GET (NOAA_BASE_URL +:+ ep) st) as [r st1].
  simpl in Hs.
  destruct (and_then r raise_for_status); simpl; [|done].
  eapply same_store_trans; [exact Hs | apply IH].
Qed.








(** ** The loop over the items *)

Lemma fetch_loop_app w category pre post st :
  fetch_loop w category (pre ++ post) st =
  match fetch_loop w category pre st with
  | Returns _ st1 => fetch_loop w category post st1
  | Raises e st1 => Raises e st1
  end.
Proof.
  revert st. induction pre as [|[key endpoint] pre IH]; intros st; simpl; [done|].
  destruct (fetch_endpoint w category key endpoint st); [apply IH|done].
Qed.


(** ** A status outside the retry set *)

Lemma session_get_no_retry w url st r :
  http w (length (trace st)) GET url = Answer r →
  is_retry (status_code r) = false →
  session_get w url st = (inr r, record_attempt GET url st).
Proof.
  intros Ha Hr. unfold session_get. simpl. by rewrite Ha, Hr.
Qed.

(** C7: a single-path endpoint whose server answers 404 to every attempt
    fails on the first attempt: 404 is not a status of the retry set, so
    exactly one request goes out; the iteration returns normally after
    logging the error, the dict and the files on disk are as before, and
    the loop goes on with the next key. *)
Theorem C7_not_found_fails_at_once w category key p rest st :
  PyStr.endswith p "/" = false →
  (∀ n, ∃ r, http w n GET (NOAA_BASE_URL +:+ p) = Answer r ∧ status_code r = 404%Z) →
  (404%Z ∉ status_forcelist)
  ∧ ∃ st',
      fetch_endpoint w category key (Path p) st = Returns tt st'
      ∧ trace st' = trace st ++ [ (GET, NOAA_BASE_URL +:+ p) ]
      ∧ fetched_data st' = fetched_data st
      ∧ written st' = written st
      ∧ log st' = log st ++ [ (ERROR, Error_fetching key (HTTPError 404)) ]
      ∧ fetch_loop w category ((key, Path p) :: rest) st = fetch_loop w category rest st'.
Proof.
  intros Hp Hall.
  split. { rewrite list_elem_of_In. simpl. lia. }
  destruct (Hall (length (trace st))) as (r & Ha & Hs).
  assert (Hstep : fetch_endpoint w category key (Path p) st =
    Returns tt (logging ERROR (Error_fetching key (HTTPError 404))
                  (record_attempt GET (NOAA_BASE_URL +:+ p) st))).
  { unfold fetch_endpoint, resolve_endpoint. rewrite Hp. unfold fetch_url.
    rewrite (session_get_no_retry w _ st r Ha) by (by rewrite Hs).
    simpl. unfold raise_for_status. by rewrite Hs. }
  eexists. split; [exact Hstep|]. repeat split.
  simpl. by rewrite Hstep.
Qed.

Lemma C7_witness :
  (404%Z ∉ status_forcelist)
  ∧ ∃ st',
      fetch_endpoint always_404 "primary" "xray_flares"
        (Path "goes/primary/xray-flares-latest.json") initial_state = Returns tt st'
      ∧ trace st' = trace initial_state
                    ++ [ (GET, NOAA_BASE_URL +:+ "goes/primary/xray-flares-latest.json") ]
      ∧ fetched_data st' = fetched_data initial_state
      ∧ written st' = written initial_state
      ∧ log st' = log initial_state ++ [ (ERROR, Error_fetching "xray_flares" (HTTPError 404)) ]
      ∧ fetch_loop always_404 "primary"
          (("xray_flares", Path "goes/primary/xray-flares-latest.json") :: []) initial_state
        = fetch_loop always_404 "primary" [] st'.
Proof.
  apply (C7_not_found_fails_at_once always_404 "primary" "xray_flares"
           "goes/primary/xray-flares-latest.json" [] initial_state).
  - reflexivity.
  - intros n. eexists. split; reflexivity.
Defined.

(** ** A body that does not parse *)

Lemma fetch_url_raises w category key url st e st1 :
  session_get w url st = (inl e, st1) →
  fetch_url w category key url st = logging ERROR (Error_fetching key e) st1.
Proof. intros H. unfold fetch_url. by rewrite H. Qed.



(** ** A directory key outside the tertiary catalog *)

Lemma resolve_directory_unknown w key p st :
  PyStr.endswith p "/" = true →
  tertiary_path key = None →
  resolve_endpoint w key (Path p) st = Raises (KeyError key) st.
Proof.
  intros Hp Hk. unfold resolve_endpoint, get_latest_file_url. by rewrite Hp, Hk.
Qed.

(** C10: [get_latest_file_url] reads the directory path from
    [TERTIARY_ENDPOINTS], not from the target the orchestrator holds:
    two directory-style targets under one key resolve alike.  For a
    directory-style key that the tertiary catalog lacks, the lookup
    raises [KeyError] before any request is made, nothing catches it,
    and the run of [fetch_noaa_data] ends in that exception: no mapping
    is returned and the keys after it are not processed. *)
Theorem C10_directory_key_outside_tertiary_aborts
    w category pre key p post st st1 :
  PyStr.endswith p "/" = true →
  tertiary_path key = None →
  fetch_loop w category pre (fresh_dict st) = Returns tt st1 →
  (∀ p' s, PyStr.endswith p' "/" = true →
     resolve_endpoint w key (Path p') s = resolve_endpoint w key (Path p) s)
  ∧ get_latest_file_url w NOAA_BASE_URL key st1 = Raises (KeyError key) st1
  ∧ fetch_endpoint w category key (Path p) st1 = Raises (KeyError key) st1
  ∧ fetch_noaa_data w (pre ++ (key, Path p) :: post) category st
    = Raises (KeyError key) st1.
Proof.
  intros Hp Hk Hpre.
  split.
  { intros p' s Hp'. unfold resolve_endpoint. by rewrite Hp, Hp'. }
  split.
  { unfold get_latest_file_url. by rewrite Hk. }
  assert (Hstep : fetch_endpoint w category key (Path p) st1 = Raises (KeyError key) st1).
  { unfold fetch_endpoint. by rewrite resolve_directory_unknown. }
  split; [exact Hstep|].
  unfold fetch_noaa_data. rewrite fetch_loop_app, Hpre. simpl. by rewrite Hstep.
Qed.

Lemma C10_witness :
  (∀ p' s, PyStr.endswith p' "/" = true →
     resolve_endpoint always_404 "aurora_maps" (Path p') s
     = resolve_endpoint always_404 "aurora_maps" (Path "ovation/images/") s)
  ∧ get_latest_file_url always_404 NOAA_BASE_URL "aurora_maps" initial_state
    = Raises (KeyError "aurora_maps") initial_state
  ∧ fetch_endpoint always_404 "secondary" "aurora_maps" (Path "ovation/images/") initial_state
    = Raises (KeyError "aurora_maps") initial_state
  ∧ fetch_noaa_data always_404
      ([] ++ ("aurora_maps", Path "ovation/images/")
          :: [ ("solar_wind_speed", Path "dscovr/dscovr_mag_1s.json") ])
      "secondary" initial_state
    = Raises (KeyError "aurora_maps") initial_state.
Proof.
  apply (C10_directory_key_outside_tertiary_aborts always_404 "secondary" []
           "aurora_maps" "ovation/images/"
           [ ("solar_wind_speed", Path "dscovr/dscovr_mag_1s.json") ]
           initial_state initial_state); reflexivity.
Defined.

(** ** The order of the three strategies *)






(** ** Which requests the retry policy covers *)

Lemma session_get_retries w url st r :
  http w (length (trace st)) GET url = Answer r →
  is_retry (status_code r) = true →
  session_get w url st = session_send w 4 GET url (record_attempt GET url st).
Proof. intros Ha Hr. unfold session_get. simpl. by rewrite Ha, Hr. Qed.

(** C3, as the code has it: the retry policy belongs to the session that
    [fetch_noaa_data] builds, and only requests sent through that session
    are retried (a status of the retry set on the first attempt leads to
    a second attempt, and at most five retries follow the first attempt).
    The alias probe is a plain [requests.head]: whatever the answer,
    exactly one HEAD goes out; the probe gives the alias URL exactly when
    that one answer has status 200, and a status of the retry set makes
    it fail at once. *)
Theorem C3_alias_probe_is_sent_once w base dir st :
  let latest_url := base +:+ dir +:+ "latest.json" in
  trace (alias_probe w base dir st).2 = trace st ++ [ (HEAD, latest_url) ]
  ∧ ((alias_probe w base dir st).1 = Some latest_url ↔
       ∃ r, http w (length (trace st)) HEAD latest_url = Answer r
            ∧ status_code r = 200%Z)
  ∧ (∀ r, http w (length (trace st)) HEAD latest_url = Answer r →
          is_retry (status_code r) = true →
          (alias_probe w base dir st).1 = None)
  ∧ (∀ url r, http w (length (trace st)) GET url = Answer r →
          is_retry (status_code r) = true →
          session_get w url st = session_send w 4 GET url (record_attempt GET url st))
  ∧ (∀ url, ∃ n, (1 ≤ n ≤ 6)%nat
          ∧ trace (session_get w url st).2 = trace st ++ replicate n (GET, url)).
Proof.
  intros latest_url. unfold alias_probe, requests_head, send. fold latest_url.
  split; [|split; [|split; [|split]]].
  - destruct (http w _ _ _) as [r|]; [|done].
    by destruct (status_code r =? 200)%Z.
  - destruct (http w _ _ _) as [r|]; simpl.
    + destruct (status_code r =? 200)%Z eqn:E; simpl.
      * apply Z.eqb_eq in E. split; [|done]. intros _. by exists r.
      * apply Z.eqb_neq in E. split; [done|]. by intros (r' & [= <-] & ?).
    + split; [done|]. by intros (r' & ? & _).
  - intros r -> Hr.
    destruct (status_code r =? 200)%Z eqn:E; [|done].
    apply Z.eqb_eq in E. rewrite E in Hr. discriminate.
  - intros url r. apply session_get_retries.
  - intros url. apply (session_send_trace w retry_total GET url st).
Qed.

(** Against C3 as stated: the alias answers 503 to the probe and would
    answer 200 to a retry (a HEAD sent through the session gets it on
    its second attempt), but the resolver sends one HEAD only and ends
    without a URL. *)
Lemma C3_counterexample :
  let w := alias_busy_once in
  let dir := NOAA_BASE_URL +:+ "lists/rgeojson/US-Canada-1D/" in
  let after_index := record_attempt GET (dir +:+ "index.json") initial_state in
  (∃ st', get_latest_file_url w NOAA_BASE_URL "electric_field_us_canada" initial_state
          = Returns None st'
          ∧ trace st' = [ (GET, dir +:+ "index.json");
                          (HEAD, dir +:+ "latest.json");
                          (GET, dir) ])
  ∧ http w 1 HEAD (dir +:+ "latest.json") = Answer busy_page
  ∧ is_retry (status_code busy_page) = true
  ∧ (session_send w retry_total HEAD (dir +:+ "latest.json") after_index).1
    = inr empty_page.
Proof.
  split; [|repeat split].
  eexists. split; reflexivity.
Qed.

(** ** A list of alternates *)










(** * Properties of the retention sweep *)

Lemma elem_of_drop_full {A : Type} n (l : list A) x : x ∈ drop n l → x ∈ l.
Proof. intros H. rewrite <- (take_drop n l). apply elem_of_app. by right. Qed.

Lemma elem_of_take_full {A : Type} n (l : list A) x : x ∈ take n l → x ∈ l.
Proof. intros H. rewrite <- (take_drop n l). apply elem_of_app. by left. Qed.


(** ** The stable sort *)

Section StableSortFacts.
Context {A : Type} (key : A → Z).

Lemma insert_desc_perm x l : insert_desc key x l ≡ₚ x :: l.
Proof.
  induction l as [|y l IH]; simpl; [done|].
  destruct (key y <=? key x)%Z; [done|].
  rewrite IH. apply Permutation_swap.
Qed.

Lemma sort_desc_perm l : sort_desc key l ≡ₚ l.
Proof.
  induction l as [|x l IH]; simpl; [done|].
  unfold sort_desc in *. simpl. by rewrite insert_desc_perm, IH.
Qed.

Lemma elem_of_sort_desc x l : x ∈ sort_desc key l ↔ x ∈ l.
Proof. by rewrite sort_desc_perm. Qed.








End StableSortFacts.

Lemma insert_desc_fmap {A B : Type} (f : A → B) (key : B → Z) x l :
  insert_desc key (f x) (f <$> l) = f <$> insert_desc (key ∘ f) x l.
Proof.
  induction l as [|y l IH]; simpl; [done|].
  destruct (key (f y) <=? key (f x))%Z; simpl; [done|]. f_equal. exact IH.
Qed.

Lemma sort_desc_cons {A : Type} (key : A → Z) x l :
  sort_desc key (x :: l) = insert_desc key x (sort_desc key l).
Proof. reflexivity. Qed.

Lemma sort_desc_fmap {A B : Type} (f : A → B) (key : B → Z) l :
  sort_desc key (f <$> l) = f <$> sort_desc (key ∘ f) l.
Proof.
  induction l as [|x l IH]; [done|].
  rewrite fmap_cons, !sort_desc_cons, IH. apply insert_desc_fmap.
Qed.

(** ** Lists without repetition *)



Lemma NoDup_fmap_eq {A B : Type} (f : A → B) (l : list A) x y :
  NoDup (f <$> l) → x ∈ l → y ∈ l → f x = f y → x = y.
Proof.
  induction l as [|z l IH]; intros Hl Hx Hy Hf; [by apply elem_of_nil in Hx|].
  rewrite fmap_cons in Hl. apply NoDup_cons in Hl as [Hz Hl].
  apply elem_of_cons in Hx as [->|Hx]; apply elem_of_cons in Hy as [->|Hy].
  - done.
  - exfalso. apply Hz. rewrite Hf. by apply list_elem_of_fmap_2.
  - exfalso. apply Hz. rewrite <- Hf. by apply list_elem_of_fmap_2.
  - by apply IH.
Qed.

(** ** What the first loop collects *)

Lemma group_of_append c c' t g :
  group_of c (group_append c' t g) =
  if String.eqb c' c then group_of c g ++ [ t ] else group_of c g.
Proof.
  induction g as [|[k l] g IH]; simpl; [done|].
  destruct (String.eqb_spec k c') as [->|Hkc']; simpl.
  - by destruct (String.eqb c' c).
  - destruct (String.eqb_spec k c) as [->|Hkc]; [|exact IH].
    destruct (String.eqb_spec c' c); [congruence|done].
Qed.

Lemma group_append_keys c t g :
  (group_append c t g).*1 = if decide (c ∈ g.*1) then g.*1 else g.*1 ++ [ c ].
Proof.
  induction g as [|[k l] g IH].
  - destruct (decide (c ∈ ([] : groups).*1)) as [H|H]; [|done].
    by apply elem_of_nil in H.
  - cbn [group_append]. destruct (String.eqb_spec k c) as [->|Hkc].
    + destruct (decide (c ∈ ((c, l) :: g).*1)) as [H|H]; [done|].
      exfalso. apply H. left.
    + rewrite !fmap_cons, IH. cbn [fst].
      destruct (decide (c ∈ g.*1)) as [Hc|Hc];
        destruct (decide (c ∈ k :: g.*1)) as [H|H]; try done.
      * exfalso. apply H. by right.
      * exfalso. apply elem_of_cons in H as [?|?]; [congruence|done].
Qed.

Lemma group_append_NoDup c t g : NoDup g.*1 → NoDup (group_append c t g).*1.
Proof.
  intros Hg. rewrite group_append_keys.
  destruct (decide (c ∈ g.*1)) as [Hc|Hc]; [done|].
  apply NoDup_app. split; [done|]. split; [|apply NoDup_singleton].
  intros x Hx ->%list_elem_of_singleton. done.
Qed.

Lemma aged_cons data_dir cutoff f l :
  aged data_dir cutoff (f :: l) =
  (if decide (is_json f ∧ is_old cutoff f) then [ path_in data_dir f ] else [])
  ++ aged data_dir cutoff l.
Proof.
  unfold aged. rewrite filter_cons. by destruct (decide (is_json f ∧ is_old cutoff f)).
Qed.

Lemma members_cons c f l :
  members c (f :: l) =
  (if decide (is_json f ∧ category_of (filename f) = Some c) then [ f ] else [])
  ++ members c l.
Proof.
  unfold members. rewrite filter_cons.
  by destruct (decide (is_json f ∧ category_of (filename f) = Some c)).
Qed.

Lemma scan_file_spec data_dir cutoff g del f :
  scan_file data_dir cutoff (g, del) f =
  (add_to_groups data_dir g f,
   del ++ if decide (is_json f ∧ is_old cutoff f) then [ path_in data_dir f ] else []).
Proof.
  unfold scan_file, add_to_groups, tuple_in, path_in.
  destruct (decide (is_json f ∧ is_old cutoff f)) as [[Hj Ho]|Hn].
  - unfold is_json in Hj. unfold is_old in Ho. rewrite Hj. simpl.
    apply Z.ltb_lt in Ho. by rewrite Ho.
  - destruct (PyStr.endswith (filename f) ".json") eqn:Ej; simpl.
    + destruct (file_time f <? cutoff)%Z eqn:Eo.
      * exfalso. apply Hn. split; [done|]. by apply Z.ltb_lt.
      * by rewrite app_nil_r.
    + by rewrite app_nil_r.
Qed.

Lemma scan_fold data_dir cutoff listing g del :
  foldl (scan_file data_dir cutoff) (g, del) listing =
  (foldl (add_to_groups data_dir) g listing, del ++ aged data_dir cutoff listing).
Proof.
  revert g del. induction listing as [|f l IH]; intros g del.
  - simpl. by rewrite app_nil_r.
  - cbn [foldl]. rewrite scan_file_spec, IH, aged_cons. by rewrite <- app_assoc.
Qed.

Lemma scan_spec data_dir cutoff listing :
  scan data_dir cutoff listing =
  (foldl (add_to_groups data_dir) [] listing, aged data_dir cutoff listing).
Proof. unfold scan. by rewrite scan_fold. Qed.

Lemma group_of_add data_dir c g f :
  group_of c (add_to_groups data_dir g f) =
  group_of c g
  ++ (tuple_in data_dir <$>
      if decide (is_json f ∧ category_of (filename f) = Some c) then [ f ] else []).
Proof.
  unfold add_to_groups.
  destruct (decide (is_json f ∧ category_of (filename f) = Some c)) as [[Hj Hc]|Hn].
  - unfold is_json in Hj. rewrite Hj, Hc. simpl.
    by rewrite group_of_append, String.eqb_refl.
  - rewrite fmap_nil, app_nil_r.
    destruct (PyStr.endswith (filename f) ".json") eqn:Ej; simpl; [|done].
    destruct (category_of (filename f)) as [c'|] eqn:Ec; [|done].
    rewrite group_of_append.
    destruct (String.eqb_spec c' c) as [->|_]; [|done].
    exfalso. by apply Hn.
Qed.

Lemma group_of_fold data_dir c listing g :
  group_of c (foldl (add_to_groups data_dir) g listing) =
  group_of c g ++ (tuple_in data_dir <$> members c listing).
Proof.
  revert g. induction listing as [|f l IH]; intros g.
  - simpl. by rewrite app_nil_r.
  - cbn [foldl]. rewrite IH, group_of_add, members_cons, fmap_app.
    by rewrite <- app_assoc.
Qed.

Lemma groups_fold_NoDup data_dir listing g :
  NoDup g.*1 → NoDup (foldl (add_to_groups data_dir) g listing).*1.
Proof.
  revert g. induction listing as [|f l IH]; intros g Hg; simpl; [done|].
  apply IH. unfold add_to_groups.
  destruct (negb _); [done|].
  destruct (category_of _); [by apply group_append_NoDup|done].
Qed.

Lemma group_of_elem c ts g : NoDup g.*1 → (c, ts) ∈ g → group_of c g = ts.
Proof.
  induction g as [|[k l] g IH]; intros Hg Hin; [by apply elem_of_nil in Hin|].
  simpl in *. apply NoDup_cons in Hg as [Hk Hg].
  apply elem_of_cons in Hin as [[= <- <-]|Hin].
  - by rewrite String.eqb_refl.
  - destruct (String.eqb_spec k c) as [->|_]; [|by apply IH].
    exfalso. apply Hk. apply list_elem_of_fmap. by exists (c, ts).
Qed.

Lemma group_of_nonempty c g : group_of c g ≠ [] → (c, group_of c g) ∈ g.
Proof.
  induction g as [|[k l] g IH]; simpl; [done|].
  destruct (String.eqb_spec k c) as [->|_]; intros H; [left|right; by apply IH].
Qed.

(** ** What the second loop adds *)

Lemma elem_of_foldl_mark x del ts :
  x ∈ foldl mark del ts ↔ x ∈ del ∨ x ∈ tuple_path <$> ts.
Proof.
  revert del. induction ts as [|t ts IH]; intros del; simpl.
  - split; [by left|]. intros [?|H]; [done|]. by apply elem_of_nil in H.
  - rewrite IH. unfold mark. rewrite elem_of_cons.
    destruct (bool_decide_reflect (tuple_path t ∈ del)) as [Ht|Ht].
    + split; [intros [?|?]; auto|]. intros [?|[->|?]]; auto.
    + rewrite elem_of_app, list_elem_of_singleton. tauto.
Qed.

Lemma foldl_mark_NoDup del ts : NoDup del → NoDup (foldl mark del ts).
Proof.
  revert del. induction ts as [|t ts IH]; intros del Hdel; simpl; [done|].
  apply IH. unfold mark.
  destruct (bool_decide_reflect (tuple_path t ∈ del)) as [Ht|Ht]; [done|].
  apply NoDup_app. split; [done|]. split; [|apply NoDup_singleton].
  intros y Hy ->%list_elem_of_singleton. done.
Qed.

Lemma elem_of_prune_group x n del entry :
  x ∈ prune_group n del entry ↔
  x ∈ del ∨ x ∈ tuple_path <$> drop n (sort_desc tuple_time entry.2).
Proof.
  unfold prune_group.
  destruct (n <? length (sort_desc tuple_time entry.2))%nat eqn:E.
  - apply elem_of_foldl_mark.
  - apply Nat.ltb_ge in E. rewrite drop_ge by done. simpl.
    split; [by left|]. intros [?|H]; [done|]. by apply elem_of_nil in H.
Qed.

Lemma prune_group_NoDup n del entry : NoDup del → NoDup (prune_group n del entry).
Proof.
  intros Hdel. unfold prune_group.
  destruct (_ <? _)%nat; [by apply foldl_mark_NoDup|done].
Qed.

Lemma elem_of_foldl_prune x n g del :
  x ∈ foldl (prune_group n) del g ↔
  x ∈ del ∨ ∃ entry, entry ∈ g
             ∧ x ∈ tuple_path <$> drop n (sort_desc tuple_time entry.2).
Proof.
  revert del. induction g as [|e g IH]; intros del; simpl.
  - split; [by left|]. intros [?|(e & He & _)]; [done|]. by apply elem_of_nil in He.
  - rewrite IH, elem_of_prune_group. split.
    + intros [[?|?]|(e' & He' & ?)]; [by left| |].
      * right. exists e. split; [left|done].
      * right. exists e'. split; [by right|done].
    + intros [?|(e' & [->|He']%elem_of_cons & ?)]; [by left; left|by left; right|].
      right. by exists e'.
Qed.

Lemma foldl_prune_NoDup n g del : NoDup del → NoDup (foldl (prune_group n) del g).
Proof.
  revert del. induction g as [|e g IH]; intros del Hdel; simpl; [done|].
  by apply IH, prune_group_NoDup.
Qed.

(** ** The list of marked paths *)

Lemma sort_desc_ext {A : Type} (k1 k2 : A → Z) l :
  (∀ x, k1 x = k2 x) → sort_desc k1 l = sort_desc k2 l.
Proof.
  intros Hk. induction l as [|x l IH]; [done|].
  rewrite !sort_desc_cons, IH. clear IH.
  induction (sort_desc k2 l) as [|y k IHk]; simpl; [done|].
  rewrite !Hk. by rewrite IHk.
Qed.

Lemma overflow_paths data_dir n ms :
  tuple_path <$> drop n (sort_desc tuple_time (tuple_in data_dir <$> ms)) =
  path_in data_dir <$> drop n (sort_desc file_time ms).
Proof.
  rewrite sort_desc_fmap, <- fmap_drop, <- list_fmap_compose.
  rewrite (sort_desc_ext (tuple_time ∘ tuple_in data_dir) file_time) by done.
  by apply list_fmap_ext.
Qed.

(** A path is marked exactly when the age test marks it or its file
    comes after the first [max_files_per_category] files of its
    category, newest first. *)
Lemma elem_of_files_to_delete data_dir listing utcnow max_age_hours n p :
  p ∈ files_to_delete data_dir listing utcnow max_age_hours n ↔
  p ∈ aged data_dir (cutoff_time utcnow max_age_hours) listing
  ∨ ∃ c, p ∈ path_in data_dir <$> drop n (sort_desc file_time (members c listing)).
Proof.
  unfold files_to_delete. rewrite scan_spec, elem_of_foldl_prune.
  set (g := foldl (add_to_groups data_dir) [] listing).
  assert (Hg : NoDup g.*1) by (apply groups_fold_NoDup; constructor).
  assert (Hof : ∀ c, group_of c g = tuple_in data_dir <$> members c listing).
  { intros c. unfold g. by rewrite group_of_fold. }
  split; (intros [Ha|H]; [by left|right]).
  - destruct H as ([c ts] & Hin & Hp). exists c.
    rewrite <- overflow_paths, <- Hof. by rewrite (group_of_elem c ts g Hg Hin).
  - destruct H as (c & Hp). rewrite <- overflow_paths, <- Hof in Hp.
    exists (c, group_of c g). split; [|done].
    apply group_of_nonempty. intros He. rewrite He in Hp. simpl in Hp.
    rewrite drop_nil in Hp. by apply elem_of_nil in Hp.
Qed.

Lemma files_to_delete_NoDup data_dir listing utcnow max_age_hours n :
  NoDup (path_in data_dir <$> listing) →
  NoDup (files_to_delete data_dir listing utcnow max_age_hours n).
Proof.
  intros Hl. unfold files_to_delete. rewrite scan_spec.
  apply foldl_prune_NoDup. unfold aged.
  eapply sublist_NoDup; [exact Hl|]. apply fmap_sublist, sublist_filter.
Qed.


(** ** The third loop *)

Lemma filter_ext_in {A : Type} (P Q : A → Prop)
    `{∀ x, Decision (P x)} `{∀ x, Decision (Q x)} (l : list A) :
  (∀ x, x ∈ l → (P x ↔ Q x)) → filter P l = filter Q l.
Proof.
  induction l as [|x l IH]; intros Hpq; [done|].
  rewrite !filter_cons.
  rewrite IH by (intros y Hy; apply Hpq; by right).
  destruct (decide (P x)) as [Hp|Hp], (decide (Q x)) as [Hq|Hq]; try done;
    exfalso; [apply Hq|apply Hp]; by apply (Hpq x); [left|].
Qed.

Lemma filter_all {A : Type} (P : A → Prop) `{∀ x, Decision (P x)} (l : list A) :
  (∀ x, x ∈ l → P x) → filter P l = l.
Proof.
  induction l as [|x l IH]; intros Hp; [done|].
  rewrite filter_cons, decide_True by (apply Hp; left).
  rewrite IH; [done|]. intros y Hy. apply Hp. by right.
Qed.

Lemma filter_none {A : Type} (P : A → Prop) `{∀ x, Decision (P x)} (l : list A) :
  (∀ x, x ∈ l → ¬ P x) → filter P l = [].
Proof.
  induction l as [|x l IH]; intros Hp; [done|].
  rewrite filter_cons, decide_False by (apply Hp; left).
  apply IH. intros y Hy. apply Hp. by right.
Qed.

Lemma NoDup_paths_filter data_dir (P : file_entry → Prop) `{∀ x, Decision (P x)} l :
  NoDup (path_in data_dir <$> l) → NoDup (path_in data_dir <$> filter P l).
Proof.
  intros Hl. eapply sublist_NoDup; [exact Hl|]. apply fmap_sublist, sublist_filter.
Qed.

(** [os.remove] succeeds exactly when the path names a removable entry. *)
Lemma os_remove_spec data_dir p listing :
  os_remove data_dir p listing =
  if decide (Exists (λ f, path_in data_dir f = p ∧ removable f = true) listing)
  then Some (filter (λ f, path_in data_dir f ≠ p) listing)
  else None.
Proof.
  unfold os_remove.
  destruct (existsb _ listing) eqn:E.
  - apply existsb_exists in E as (f & Hf & Hb).
    apply andb_true_iff in Hb as [Hh Hr]. apply String.eqb_eq in Hh.
    rewrite decide_True.
    + f_equal. apply filter_ext_in. intros x _. unfold path_in.
      destruct (String.eqb_spec (PyStr.os_path_join data_dir (filename x)) p);
        split; intros; congruence.
    + apply Exists_exists. exists f. by rewrite list_elem_of_In.
  - rewrite decide_False; [done|]. intros (f & Hf & Hp & Hr)%Exists_exists.
    apply not_true_iff_false in E. apply E. apply existsb_exists.
    exists f. split; [by apply list_elem_of_In|].
    apply andb_true_iff. split; [|done]. by apply String.eqb_eq.
Qed.

Lemma remove_loop data_dir ps :
  NoDup ps →
  ∀ s, NoDup (path_in data_dir <$> remaining s) →
    remaining (foldl (remove_one data_dir) s ps)
    = filter (λ f, ¬ doomed data_dir ps f) (remaining s)
    ∧ deleted_count (foldl (remove_one data_dir) s ps)
      = (deleted_count s + length (filter (doomed data_dir ps) (remaining s)))%nat.
Proof.
  induction 1 as [|p ps Hp Hps IH]; intros s Hs.
  - simpl. split.
    + symmetry. apply filter_all. intros x _ [Hx _]. by apply elem_of_nil in Hx.
    + rewrite filter_none; [simpl; lia|]. intros x _ [Hx _]. by apply elem_of_nil in Hx.
  - cbn [foldl]. unfold remove_one at 2 4. rewrite os_remove_spec.
    destruct (decide (Exists (λ f, path_in data_dir f = p ∧ removable f = true)
                        (remaining s)))
      as [(f0 & Hf0 & Hp0 & Hr0)%Exists_exists|Hnone].
    + set (s1 := {| remaining := filter (λ f, path_in data_dir f ≠ p) (remaining s);
                    deleted_count := S (deleted_count s); failed := failed s |}).
      destruct (IH s1) as [Hrem Hcount]; [by apply NoDup_paths_filter|].
      assert (Huniq : ∀ x, x ∈ remaining s → path_in data_dir x = p → x = f0).
      { intros x Hx Hxp. eapply NoDup_fmap_eq; [exact Hs|done|done|congruence]. }
      split.
      * rewrite Hrem. simpl. rewrite list_filter_filter. apply filter_ext_in.
        intros x Hx. unfold doomed. rewrite elem_of_cons. split.
        -- intros [Hnd Hne] [[Heq|Hin] Hr]; [congruence|]. by apply Hnd.
        -- intros Hnd. split.
           ++ intros [Hin Hr]. apply Hnd. split; [by right|done].
           ++ intros Hxp. apply Hnd. rewrite (Huniq x Hx Hxp). split; [by left|done].
      * rewrite Hcount. simpl. rewrite list_filter_filter.
        clear IH Hrem Hcount s1. revert Hf0 Hs Huniq.
        induction (remaining s) as [|x l IHl]; intros Hf0 Hl Huniq;
          [by apply elem_of_nil in Hf0|].
        rewrite fmap_cons in Hl. apply NoDup_cons in Hl as [Hx Hl].
        rewrite !filter_cons.
        destruct (decide (path_in data_dir x = p)) as [Hxp|Hxp].
        -- assert (x = f0) as -> by (apply Huniq; [left|done]).
           rewrite decide_False by (intros [_ ?]; done).
           rewrite decide_True by (split; [rewrite Hp0; left|done]).
           simpl.
           rewrite (filter_ext_in (λ a, doomed data_dir ps a ∧ path_in data_dir a ≠ p)
                      (doomed data_dir (p :: ps)) l); [lia|].
           intros y Hy. unfold doomed. rewrite elem_of_cons.
           assert (path_in data_dir y ≠ p).
           { intros Hyp. apply Hx. rewrite Hp0, <- Hyp. by apply list_elem_of_fmap_2. }
           tauto.
        -- apply elem_of_cons in Hf0 as [->|Hf0]; [done|].
           assert (Heq : doomed data_dir ps x ∧ path_in data_dir x ≠ p
                         ↔ doomed data_dir (p :: ps) x).
           { unfold doomed. rewrite elem_of_cons. tauto. }
           specialize (IHl Hf0 Hl (λ y Hy, Huniq y (list_elem_of_further _ _ _ Hy))).
           destruct (decide (doomed data_dir ps x ∧ path_in data_dir x ≠ p)) as [Hd|Hd];
             [rewrite decide_True by tauto|rewrite decide_False by tauto];
             simpl; lia.
    + set (s1 := {| remaining := remaining s; deleted_count := deleted_count s;
                    failed := failed s ++ [ p ] |}).
      destruct (IH s1) as [Hrem Hcount]; [done|].
      assert (Heq : ∀ x, x ∈ remaining s →
                (doomed data_dir ps x ↔ doomed data_dir (p :: ps) x)).
      { intros x Hx. unfold doomed. rewrite elem_of_cons. split; [tauto|].
        intros [[Hxp|Hin] Hr]; [|done]. exfalso. apply Hnone.
        apply Exists_exists. by exists x. }
      split.
      * rewrite Hrem. simpl. apply filter_ext_in. intros x Hx.
        specialize (Heq x Hx). tauto.
      * rewrite Hcount. simpl. f_equal. f_equal. by apply filter_ext_in.
Qed.

(** The directory after a sweep, and the count the sweep logs. *)
Lemma cleanup_spec data_dir listing utcnow max_age_hours n :
  NoDup (path_in data_dir <$> listing) →
  let marked := files_to_delete data_dir listing utcnow max_age_hours n in
  remaining (cleanup_old_files data_dir listing utcnow max_age_hours n)
  = filter (λ f, ¬ doomed data_dir marked f) listing
  ∧ deleted_count (cleanup_old_files data_dir listing utcnow max_age_hours n)
    = length (filter (doomed data_dir marked) listing).
Proof.
  intros Hl marked. unfold cleanup_old_files. fold marked.
  destruct (remove_loop data_dir marked (files_to_delete_NoDup _ _ _ _ _ Hl)
              {| remaining := listing; deleted_count := 0; failed := [] |} Hl)
    as [Hrem Hcount].
  split; [exact Hrem|]. rewrite Hcount. simpl. lia.
Qed.

(** ** The age rule *)



Lemma members_category c listing f :
  f ∈ members c listing → f ∈ listing ∧ is_json f ∧ category_of (filename f) = Some c.
Proof. intros [[? ?] ?]%list_elem_of_filter. done. Qed.

Lemma remaining_elem data_dir listing utcnow max_age_hours n f :
  NoDup (path_in data_dir <$> listing) →
  f ∈ remaining (cleanup_old_files data_dir listing utcnow max_age_hours n) ↔
  f ∈ listing
  ∧ ¬ doomed data_dir (files_to_delete data_dir listing utcnow max_age_hours n) f.
Proof.
  intros Hl. destruct (cleanup_spec data_dir listing utcnow max_age_hours n Hl) as [-> _].
  rewrite list_elem_of_filter. tauto.
Qed.


(** ** Names without a category *)




(** ** The count rule *)







(** ** Running the sweep twice *)




(** ** The laws on a directory *)





(** * Worked scenarios *)

Example category_of_snapshot :
  category_of "primary_solar_wind_20250220120000.json" = Some "primary_solar_wind".
Proof. reflexivity. Qed.

Example category_of_two_parts : category_of "a_b.json" = None.
Proof. reflexivity. Qed.

Example efield_scan :
  Efield.findall (text efield_listing)
  = [ "20240101T000000-15-Efield-x.json"; "20240102T000000-15-Efield-x.json" ].
Proof. vm_compute. reflexivity. Qed.

(** With index and alias missing, the listing scan picks the greatest
    of the file names it finds. *)
Example manual_scan_picks_greatest :
  ∃ st', get_latest_file_url listing_only NOAA_BASE_URL "electric_field_us_canada"
           initial_state
         = Returns (Some (NOAA_BASE_URL +:+ "lists/rgeojson/US-Canada-1D/"
                            +:+ "20240102T000000-15-Efield-x.json")) st'
         ∧ length (trace st') = 3%nat.
Proof. eexists. split; [vm_compute; reflexivity|reflexivity]. Qed.

(** 503 three times, then 200: the fourth attempt succeeds, the payload
    is stored under the key and one file is written. *)
Example busy_then_served :
  ∃ st', fetch_endpoint busy_three_times "primary" "geomagnetic_kp"
           (Path "geospace/geospace_pred_est_kp_1_hour.json") initial_state
         = Returns tt st'
         ∧ length (trace st') = 4%nat
         ∧ fetched_data st' !! "geomagnetic_kp" = Some (JArr [ JNum 3 ])
         ∧ written st'
           = [ ("noaa_data/primary_geomagnetic_kp_20250220000000.json", JArr [ JNum 3 ]) ].
Proof.
  eexists. split; [vm_compute; reflexivity|].
  split; [reflexivity|]. split; [by vm_compute|reflexivity].
Qed.

(** A status of the retry set on every attempt: the session gives up
    after the first attempt and five retries. *)
Example busy_forever :
  let w := quiet_runtime (λ _ _ _, Answer busy_page) in
  (session_get w "u" initial_state).1 = inl RetryError
  ∧ length (trace (session_get w "u" initial_state).2) = 6%nat.
Proof. split; by vm_compute. Qed.

(** Snapshots one, two and thirty hours old, at most two per category,
    24 hours of age: the oldest goes, for its age; the others stay. *)
Example three_snapshots_swept :
  let s := cleanup_old_files DATA_DIR three_snapshots (100 * hour) 24 2 in
  filename <$> remaining s = [ "primary_x_A.json"; "primary_x_B.json" ]
  ∧ deleted_count s = 1%nat
  ∧ failed s = [].
Proof. by vm_compute. Qed.

(** A missing directory is left alone. *)
Example missing_directory : cleanup_if_exists DATA_DIR None (100 * hour) 24 10 = None.
Proof. reflexivity. Qed.

(** * Further properties of the fetch side *)

(** ** The retry policy of the session *)

Lemma attempts_trace n m url st :
  trace (attempts n m url st) = trace st ++ replicate n (m, url).
Proof.
  revert st. induction n as [|n IH]; intros st; simpl.
  - by rewrite app_nil_r.
  - rewrite IH. simpl. by rewrite <- app_assoc.
Qed.

Lemma attempts_store n m url st : same_store st (attempts n m url st).
Proof.
  revert st. induction n as [|n IH]; intros st; simpl; [done|].
  eapply same_store_trans; [|apply IH]. by split.
Qed.


Lemma session_send_retried w retries m url st :
  retried (http w (length (trace st)) m url) →
  session_send w (S retries) m url st = session_send w retries m url (record_attempt m url st).
Proof.
  simpl. destruct (http w (length (trace st)) m url) as [r|]; simpl; [|done].
  by intros ->.
Qed.

Lemma length_trace_record m url st :
  length (trace (record_attempt m url st)) = S (length (trace st)).
Proof. simpl. rewrite length_app. simpl. lia. Qed.


Lemma session_send_exhausted w m url retries :
  ∀ st,
    (∀ i, (i ≤ retries)%nat → retried (http w (length (trace st) + i) m url)) →
    session_send w retries m url st
    = (inl (exhausted (http w (length (trace st) + retries) m url)),
       attempts (S retries) m url st).
Proof.
  induction retries as [|retries IH]; intros st Hbad.
  - specialize (Hbad 0%nat (Nat.le_refl _)). rewrite Nat.add_0_r in *. simpl.
    destruct (http w (length (trace st)) m url) as [r|]; simpl in *; [|done].
    by rewrite Hbad.
  - rewrite session_send_retried.
    + rewrite IH.
      * rewrite length_trace_record.
        by replace (S (length (trace st)) + retries)%nat
          with (length (trace st) + S retries)%nat by lia.
      * intros i Hi. rewrite length_trace_record.
        replace (S (length (trace st)) + i)%nat with (length (trace st) + S i)%nat by lia.
        apply Hbad. lia.
    + specialize (Hbad 0%nat). rewrite Nat.add_0_r in Hbad. apply Hbad. lia.
Qed.



(** X2: when the first six attempts of a request through the session
    all fail or carry a status of the retry set, the session makes
    exactly six attempts and raises: [RetryError] when the sixth attempt
    was answered, [ConnectionError] when it failed.  The [try] block of
    [fetch_noaa_data] then logs the error and stores and writes
    nothing. *)
Theorem X2_session_get_gives_up_after_six w category key url st :
  (∀ i, (i ≤ 5)%nat → retried (http w (length (trace st) + i) GET url)) →
  let e := exhausted (http w (length (trace st) + 5) GET url) in
  let st' := attempts 6 GET url st in
  session_get w url st = (inl e, st')
  ∧ trace st' = trace st ++ replicate 6 (GET, url)
  ∧ fetch_url w category key url st = logging ERROR (Error_fetching key e) st'
  ∧ same_store st (fetch_url w category key url st).
Proof.
  intros Hbad e st'.
  assert (Hget : session_get w url st = (inl e, st')).
  { unfold session_get. by rewrite session_send_exhausted. }
  split; [exact Hget|]. split; [apply attempts_trace|].
  rewrite (fetch_url_raises w category key url st e st' Hget).
  split; [done|].
  eapply same_store_trans; [apply attempts_store|apply same_store_logging].
Qed.

Lemma X2_witness :
  let w := quiet_runtime (λ _ _ _, Answer busy_page) in
  let e := exhausted (http w (length (trace initial_state) + 5) GET "u") in
  let st' := attempts 6 GET "u" initial_state in
  session_get w "u" initial_state = (inl e, st')
  ∧ trace st' = trace initial_state ++ replicate 6 (GET, "u")
  ∧ fetch_url w "primary" "k" "u" initial_state = logging ERROR (Error_fetching "k" e) st'
  ∧ same_store initial_state (fetch_url w "primary" "k" "u" initial_state).
Proof.
  apply (X2_session_get_gives_up_after_six
           (quiet_runtime (λ _ _ _, Answer busy_page)) "primary" "k" "u" initial_state).
  intros i _. reflexivity.
Defined.

(** ** The resolver *)

Lemma string_app_assoc (a b c : string) : (a +:+ b) +:+ c = a +:+ (b +:+ c).
Proof.
  induction a as [|x a IH]; [done|].
  change (String x ((a +:+ b) +:+ c) = String x (a +:+ (b +:+ c))). by rewrite IH.
Qed.

Lemma prefix_app (a b : string) : String.prefix a (a +:+ b) = true.
Proof.
  induction a as [|x a IH]; [by destruct b|].
  change (String.prefix (String x a) (String x (a +:+ b)) = true). simpl.
  destruct (ascii_dec x x); [exact IH|done].
Qed.

Lemma prefix_directory base dir name :
  String.prefix (base +:+ dir) (base +:+ dir +:+ name) = true.
Proof. rewrite <- string_app_assoc. apply prefix_app. Qed.

Lemma index_lookup_facts w base dir st u st1 :
  index_lookup w base dir st = (u, st1) →
  trace st1 = trace st ++ [ (GET, base +:+ dir +:+ "index.json") ]
  ∧ same_store st st1
  ∧ (∀ url, u = Some url → String.prefix (base +:+ dir) url = true).
Proof.
  unfold index_lookup, requests_get, send.
  destruct (http w _ _ _) as [r|]; [|intros [= <- <-]; by repeat split].
  destruct (status_code r =? 200)%Z; [|intros [= <- <-]; by repeat split].
  destruct (index_latest w r); intros [= <- <-]; repeat split; try done.
  intros url [= <-]. apply prefix_directory.
Qed.

Lemma alias_probe_facts w base dir st u st1 :
  alias_probe w base dir st = (u, st1) →
  trace st1 = trace st ++ [ (HEAD, base +:+ dir +:+ "latest.json") ]
  ∧ same_store st st1
  ∧ (∀ url, u = Some url → String.prefix (base +:+ dir) url = true).
Proof.
  unfold alias_probe, requests_head, send.
  destruct (http w _ _ _) as [r|]; [|intros [= <- <-]; by repeat split].
  destruct (status_code r =? 200)%Z; intros [= <- <-]; repeat split; try done.
  intros url [= <-]. apply prefix_directory.
Qed.

Lemma manual_scan_facts w base dir key st u st1 :
  manual_scan w base dir key st = (u, st1) →
  trace st1 = trace st ++ [ (GET, base +:+ dir) ]
  ∧ same_store st st1
  ∧ (∀ url, u = Some url → String.prefix (base +:+ dir) url = true)
  ∧ (u = None → ∃ records, log st1 = log st ++ records).
Proof.
  unfold manual_scan, requests_get, send. simpl.
  destruct (http w _ _ _) as [r|].
  - destruct (status_code r =? 200)%Z.
    + destruct (PyStr.greatest _); intros [= <- <-]; repeat split; try done.
      * intros url [= <-]. apply prefix_directory.
      * intros _. by eexists.
    + intros [= <- <-]. repeat split; try done. intros _. by eexists.
  - intros [= <- <-]. repeat split; try done. intros _. simpl.
    eexists. by rewrite <- app_assoc.
Qed.

Lemma get_latest_file_url_facts w base key dir st :
  tertiary_path key = Some dir →
  ∃ result st' n,
    get_latest_file_url w base key st = Returns result st'
    ∧ (1 ≤ n ≤ 3)%nat
    ∧ trace st' = trace st ++ take n (resolver_requests base dir)
    ∧ same_store st st'
    ∧ (result = None →
       n = 3%nat ∧ last (log st') = Some (ERROR, No_latest_file_found key))
    ∧ (∀ url, result = Some url → String.prefix (base +:+ dir) url = true).
Proof.
  intros Hdir. unfold get_latest_file_url. rewrite Hdir.
  destruct (index_lookup w base dir st) as [u1 s1] eqn:E1.
  destruct (index_lookup_facts _ _ _ _ _ _ E1) as (T1 & S1 & P1).
  destruct u1 as [url1|].
  { exists (Some url1), s1, 1%nat.
    split_and!; [done|lia|lia|done|done|done|auto]. }
  destruct (alias_probe w base dir s1) as [u2 s2] eqn:E2.
  destruct (alias_probe_facts _ _ _ _ _ _ E2) as (T2 & S2 & P2).
  pose proof (same_store_trans _ _ _ S1 S2) as S12.
  destruct u2 as [url2|].
  { exists (Some url2), s2, 2%nat.
    split_and!; [done|lia|lia| |done|done|auto].
    rewrite T2, T1. by rewrite <- app_assoc. }
  destruct (manual_scan w base dir key s2) as [u3 s3] eqn:E3.
  destruct (manual_scan_facts _ _ _ _ _ _ _ E3) as (T3 & S3 & P3 & L3).
  pose proof (same_store_trans _ _ _ S12 S3) as S123.
  assert (T : trace s3 = trace st ++ take 3 (resolver_requests base dir)).
  { rewrite T3, T2, T1. by rewrite <- !app_assoc. }
  destruct u3 as [url3|].
  - exists (Some url3), s3, 3%nat.
    split_and!; [done|lia|lia|done|done|done|auto].
  - exists None, (logging ERROR (No_latest_file_found key) s3), 3%nat.
    split_and!; [done|lia|lia|done| | |done].
    + eapply same_store_trans; [exact S123|apply same_store_logging].
    + intros _. split; [done|]. simpl. apply last_snoc.
Qed.



(** X4: an index that answers 200 with a listing without entries (the
    [files] key missing, or an empty list) does not end the resolution:
    [max] of the empty list raises, the warning is logged, and the alias
    is probed; when the alias answers 200 the resolver returns the alias
    URL after these two requests. *)
Theorem X4_empty_index_falls_through_to_alias w base key dir st r doc r2 :
  tertiary_path key = Some dir →
  http w (length (trace st)) GET (base +:+ dir +:+ "index.json") = Answer r →
  status_code r = 200%Z →
  json_body r = Some doc →
  PyJson.get doc "files" (JArr []) = Some (JArr []) →
  http w (S (length (trace st))) HEAD (base +:+ dir +:+ "latest.json") = Answer r2 →
  status_code r2 = 200%Z →
  let latest_url := base +:+ dir +:+ "latest.json" in
  ∃ st',
    get_latest_file_url w base key st = Returns (Some latest_url) st'
    ∧ trace st' = trace st ++ take 2 (resolver_requests base dir)
    ∧ log st' = log st ++ [ (WARNING, No_index_file_available);
                            (INFO, Found_latest_file_alias latest_url) ].
Proof.
  intros Hdir Ha Hs Hdoc Hfiles Ha2 Hs2 latest_url.
  unfold get_latest_file_url. rewrite Hdir.
  unfold index_lookup, requests_get, send. rewrite Ha, Hs. simpl.
  unfold index_latest. rewrite Hdoc. simpl. rewrite Hfiles. simpl.
  unfold alias_probe, requests_head, send. simpl.
  rewrite length_app. simpl. rewrite Nat.add_1_r, Ha2, Hs2. simpl.
  eexists. split; [reflexivity|]. simpl. split; by rewrite <- app_assoc.
Qed.

Lemma X4_witness :
  let dir := "lists/rgeojson/US-Canada-1D/" in
  let latest_url := NOAA_BASE_URL +:+ dir +:+ "latest.json" in
  ∃ st',
    get_latest_file_url bare_index_and_alias NOAA_BASE_URL "electric_field_us_canada"
      initial_state = Returns (Some latest_url) st'
    ∧ trace st' = trace initial_state ++ take 2 (resolver_requests NOAA_BASE_URL dir)
    ∧ log st' = log initial_state
                ++ [ (WARNING, No_index_file_available);
                     (INFO, Found_latest_file_alias latest_url) ].
Proof.
  apply (X4_empty_index_falls_through_to_alias bare_index_and_alias NOAA_BASE_URL
           "electric_field_us_canada" "lists/rgeojson/US-Canada-1D/" initial_state
           bare_index (JObj []) empty_page); reflexivity.
Defined.

(** ** The loop over the alternates *)

Lemma session_send_log w retries m url st :
  log (session_send w retries m url st).2 = log st.
Proof.
  revert st. induction retries as [|k IH]; intros st; simpl;
    destruct (http w (length (trace st)) m url) as [r|];
    try destruct (is_retry (status_code r)); simpl; try done; by rewrite IH.
Qed.

Lemma try_alternates_none w alternates st st1 :
  try_alternates w alternates st = (None, st1) →
  log st1 = log st
  ∧ ∃ ns, length ns = length alternates
          ∧ Forall (λ n, 1 ≤ n ≤ 6)%nat ns
          ∧ trace st1 = trace st
              ++ mjoin (zip_with (λ n ep, replicate n (GET, NOAA_BASE_URL +:+ ep))
                          ns alternates).
Proof.
  revert st. induction alternates as [|ep rest IH]; intros st; simpl.
  - intros [= <-]. split; [done|]. exists []. by rewrite app_nil_r.
  - pose proof (session_send_log w retry_total GET (NOAA_BASE_URL +:+ ep) st) as Hlog.
    destruct (session_send_trace w retry_total GET (NOAA_BASE_URL +:+ ep) st)
      as (n & Hn & Htrace).
    unfold session_get.
    destruct (session_send w retry_total GET (NOAA_BASE_URL +:+ ep) st) as [r s1].
    simpl in Hlog, Htrace.
    destruct (and_then r raise_for_status); [|discriminate].
    intros Hrest. destruct (IH s1 Hrest) as (Hl & ns & Hlen & Hns & Ht).
    split; [congruence|]. exists (n :: ns). split; [simpl; lia|].
    split; [constructor; [unfold retry_total in Hn; lia|done]|].
    rewrite Ht, Htrace. simpl. by rewrite <- app_assoc.
Qed.

(** X5: when the inner loop runs through all alternates without a
    break (each of them failed), every alternate was requested in order,
    between one and six times each, and nothing else; the iteration logs
    the error that names all variations, requests nothing further,
    stores nothing under the key, writes no file and returns.  For an
    empty list of alternates no request is made at all. *)
Theorem X5_all_alternates_failed w category key alternates st st1 :
  try_alternates w alternates st = (None, st1) →
  let st' := logging ERROR (All_endpoint_variations_failed key) st1 in
  fetch_endpoint w category key (PathList alternates) st = Returns tt st'
  ∧ same_store st st'
  ∧ log st' = log st ++ [ (ERROR, All_endpoint_variations_failed key) ]
  ∧ (∃ ns, length ns = length alternates
           ∧ Forall (λ n, 1 ≤ n ≤ 6)%nat ns
           ∧ trace st' = trace st
               ++ mjoin (zip_with (λ n ep, replicate n (GET, NOAA_BASE_URL +:+ ep))
                           ns alternates))
  ∧ (alternates = [] → trace st' = trace st).
Proof.
  intros Hnone st'.
  destruct (try_alternates_none w alternates st st1 Hnone) as (Hlog & Hreq).
  pose proof (try_alternates_store w alternates st) as Hstore.
  rewrite Hnone in Hstore. simpl in Hstore.
  split_and!.
  - unfold fetch_endpoint, resolve_endpoint. by rewrite Hnone.
  - eapply same_store_trans; [exact Hstore|apply same_store_logging].
  - simpl. by rewrite Hlog.
  - exact Hreq.
  - intros ->. simpl in Hnone. by injection Hnone as <-.
Qed.

Lemma X5_witness :
  let first := NOAA_BASE_URL +:+ "geospace/geospce_pred_est_kp_7_day.json" in
  let second := NOAA_BASE_URL +:+ "geospace/geosapce_pred_est_kp_7_day.json" in
  let st1 := record_attempt GET second (record_attempt GET first initial_state) in
  let st' := logging ERROR (All_endpoint_variations_failed "geomagnetic_kp_7d") st1 in
  fetch_endpoint always_404 "secondary" "geomagnetic_kp_7d" (PathList kp_alternates)
    initial_state = Returns tt st'
  ∧ same_store initial_state st'
  ∧ log st' = log initial_state ++ [ (ERROR, All_endpoint_variations_failed "geomagnetic_kp_7d") ]
  ∧ (∃ ns, length ns = length kp_alternates
           ∧ Forall (λ n, 1 ≤ n ≤ 6)%nat ns
           ∧ trace st' = trace initial_state
               ++ mjoin (zip_with (λ n ep, replicate n (GET, NOAA_BASE_URL +:+ ep))
                           ns kp_alternates))
  ∧ (kp_alternates = [] → trace st' = trace initial_state).
Proof.
  apply (X5_all_alternates_failed always_404 "secondary" "geomagnetic_kp_7d"
           kp_alternates initial_state).
  reflexivity.
Defined.

(** ** How many requests a run makes *)








Lemma send_grows w m url st : grows st (send w m url st).2 1.
Proof. exists [ (m, url) ]. by split. Qed.








(** ** When a run raises *)





(** ** The mapping and the files of a run *)







(** ** Snapshot names *)

Lemma split_nonempty sep s : PyStr.split sep s ≠ [].
Proof.
  destruct s as [|c r]; simpl; [done|].
  destruct (Ascii.eqb c sep); [done|]. by destruct (PyStr.split sep r).
Qed.

Lemma split_without sep s :
  sep ∉ list_ascii_of_string s → PyStr.split sep s = [ s ].
Proof.
  induction s as [|c r IH]; simpl; [done|]. intros Hn.
  apply not_elem_of_cons in Hn as [Hc Hr].
  destruct (Ascii.eqb_spec c sep) as [->|_]; [done|]. by rewrite IH.
Qed.

Lemma split_app sep a b :
  PyStr.split sep (a +:+ String sep b) = PyStr.split sep a ++ PyStr.split sep b.
Proof.
  induction a as [|c a IH].
  - change (PyStr.split sep (String sep b) = [ "" ] ++ PyStr.split sep b).
    simpl. by rewrite Ascii.eqb_refl.
  - change (PyStr.split sep (String c (a +:+ String sep b))
            = PyStr.split sep (String c a) ++ PyStr.split sep b).
    simpl. rewrite IH. destruct (Ascii.eqb c sep); [done|].
    pose proof (split_nonempty sep a). by destruct (PyStr.split sep a).
Qed.

Lemma join_split sep s : PyStr.join (String sep "") (PyStr.split sep s) = s.
Proof.
  induction s as [|c r IH]; [done|]. simpl.
  pose proof (split_nonempty sep r) as Hne.
  destruct (Ascii.eqb_spec c sep) as [->|_].
  - destruct (PyStr.split sep r) as [|p ps]; [done|].
    change (String sep (PyStr.join (String sep "") (p :: ps)) = String sep r).
    by rewrite IH.
  - destruct (PyStr.split sep r) as [|p ps]; [done|].
    destruct ps as [|p' ps].
    + simpl in *. by rewrite IH.
    + change (String c (PyStr.join (String sep "") (p :: p' :: ps)) = String c r).
      by rewrite IH.
Qed.

Lemma list_ascii_app a b :
  list_ascii_of_string (a +:+ b) = list_ascii_of_string a ++ list_ascii_of_string b.
Proof.
  induction a as [|c a IH]; [done|].
  change (c :: list_ascii_of_string (a +:+ b)
          = c :: (list_ascii_of_string a ++ list_ascii_of_string b)).
  by rewrite IH.
Qed.

Lemma string_length_app a b :
  String.length (a +:+ b) = (String.length a + String.length b)%nat.
Proof.
  induction a as [|c a IH]; [done|].
  change (S (String.length (a +:+ b)) = S (String.length a + String.length b)).
  by rewrite IH.
Qed.

Lemma substring_all b : substring 0 (String.length b) b = b.
Proof. induction b as [|c b IH]; simpl; [done|]. by rewrite IH. Qed.

Lemma substring_app_drop a b :
  substring (String.length a) (String.length b) (a +:+ b) = b.
Proof.
  induction a as [|c a IH]; [apply substring_all|].
  change (substring (S (String.length a)) (String.length b) (String c (a +:+ b)) = b).
  simpl. exact IH.
Qed.

Lemma endswith_app a b : PyStr.endswith (a +:+ b) b = true.
Proof.
  unfold PyStr.endswith. rewrite string_length_app.
  replace (String.length a + String.length b - String.length b)%nat
    with (String.length a) by lia.
  rewrite substring_app_drop, String.eqb_refl, andb_true_r.
  apply Nat.leb_le. lia.
Qed.

Lemma category_of_app prefix tail :
  "_"%char ∉ list_ascii_of_string tail →
  (2 ≤ length (PyStr.split "_" prefix))%nat →
  category_of (prefix +:+ String "_" tail) = Some prefix.
Proof.
  intros Htail Hlen. unfold category_of.
  rewrite split_app, (split_without _ tail Htail).
  unfold PyStr.all_but_last. rewrite length_app. cbn [length].
  destruct (Nat.leb_spec 3 (length (PyStr.split "_" prefix) + 1)) as [_|Hlt]; [|lia].
  replace (length (PyStr.split "_" prefix) + 1 - 1)%nat
    with (length (PyStr.split "_" prefix)) by lia.
  rewrite take_app_length. by rewrite join_split.
Qed.

(** X9: the name [fetch_noaa_data] gives a snapshot is read back by the
    sweep: it ends in [.json], and as long as the stamp holds no
    underscore its category is [category_key], whatever underscores the
    category and the key hold.  So the snapshots of two series share a
    retention group exactly when [category_key] is the same string for
    both. *)
Theorem X9_snapshot_names_parse_back category key stamp :
  no_underscore stamp →
  PyStr.endswith (snapshot_name category key stamp) ".json" = true
  ∧ category_of (snapshot_name category key stamp) = Some (category +:+ "_" +:+ key)
  ∧ (∀ category' key' stamp', no_underscore stamp' →
       category_of (snapshot_name category key stamp)
       = category_of (snapshot_name category' key' stamp')
       ↔ category +:+ "_" +:+ key = category' +:+ "_" +:+ key').
Proof.
  assert (Hname : ∀ c k s, snapshot_name c k s
                  = (c +:+ "_" +:+ k) +:+ String "_" (s +:+ ".json")).
  { intros c k s. unfold snapshot_name. rewrite !string_app_assoc. reflexivity. }
  assert (Hcat : ∀ c k s, no_underscore s →
            category_of (snapshot_name c k s) = Some (c +:+ "_" +:+ k)).
  { intros c k s Hs. rewrite Hname. apply category_of_app.
    - rewrite list_ascii_app. intros [H|H]%elem_of_app; [by apply Hs|].
      revert H. by_evaluation.
    - change (c +:+ "_" +:+ k) with (c +:+ String "_" k).
      rewrite split_app, length_app.
      pose proof (split_nonempty "_" c). pose proof (split_nonempty "_" k).
      destruct (PyStr.split "_" c), (PyStr.split "_" k); simpl; try done; lia. }
  intros Hs. split_and!.
  - unfold snapshot_name. rewrite <- !string_app_assoc. apply endswith_app.
  - by apply Hcat.
  - intros c' k' s' Hs'. rewrite !Hcat by done. split; congruence.
Qed.

Lemma X9_witness :
  PyStr.endswith (snapshot_name "primary" "solar_wind_swepam" "20250220120000") ".json" = true
  ∧ category_of (snapshot_name "primary" "solar_wind_swepam" "20250220120000")
    = Some ("primary" +:+ "_" +:+ "solar_wind_swepam")
  ∧ (∀ category' key' stamp', no_underscore stamp' →
       category_of (snapshot_name "primary" "solar_wind_swepam" "20250220120000")
       = category_of (snapshot_name category' key' stamp')
       ↔ "primary" +:+ "_" +:+ "solar_wind_swepam" = category' +:+ "_" +:+ key').
Proof.
  apply (X9_snapshot_names_parse_back "primary" "solar_wind_swepam" "20250220120000").
  by_evaluation.
Defined.

(** ** The listing scan *)




















(** ** The driver *)














(** * Further properties of the retention sweep *)

(** ** What is marked *)

Lemma marked_is_json_entry data_dir listing utcnow max_age_hours n p :
  p ∈ files_to_delete data_dir listing utcnow max_age_hours n →
  ∃ f, f ∈ listing ∧ is_json f ∧ path_in data_dir f = p.
Proof.
  intros [Ha|(c & Hc)]%elem_of_files_to_delete.
  - apply list_elem_of_fmap in Ha as (f & -> & Hf).
    apply list_elem_of_filter in Hf as [[Hj _] Hf]. by exists f.
  - apply list_elem_of_fmap in Hc as (f & -> & Hf).
    apply elem_of_drop_full, elem_of_sort_desc, members_category in Hf as (Hf & Hj & _).
    by exists f.
Qed.




(** ** What the third loop does with the marked paths *)

Lemma remove_loop_accounting data_dir ps :
  ∀ s, (deleted_count (foldl (remove_one data_dir) s ps)
        + length (failed (foldl (remove_one data_dir) s ps))
        = deleted_count s + length (failed s) + length ps)%nat.
Proof.
  induction ps as [|p ps IH]; intros s; simpl; [lia|].
  rewrite IH. unfold remove_one.
  destruct (os_remove data_dir p (remaining s)); simpl; [lia|].
  rewrite length_app. simpl. lia.
Qed.

Lemma can_remove_filter data_dir listing p q :
  p ≠ q →
  can_remove data_dir (filter (λ f, path_in data_dir f ≠ q) listing) p
  ↔ can_remove data_dir listing p.
Proof.
  intros Hpq. unfold can_remove. rewrite !Exists_exists. split.
  - intros (f & [_ Hf]%list_elem_of_filter & H). by exists f.
  - intros (f & Hf & Hp & Hr). exists f. split; [|done].
    apply list_elem_of_filter. split; [congruence|done].
Qed.

Lemma remove_loop_failed data_dir ps :
  NoDup ps →
  ∀ s p,
    p ∈ failed (foldl (remove_one data_dir) s ps)
    ↔ p ∈ failed s ∨ (p ∈ ps ∧ ¬ can_remove data_dir (remaining s) p).
Proof.
  induction 1 as [|q ps Hq Hps IH]; intros s p; simpl.
  - split; [by left|]. intros [?|[H _]]; [done|]. by apply elem_of_nil in H.
  - rewrite IH. unfold remove_one. rewrite os_remove_spec.
    destruct (decide (Exists (λ f, path_in data_dir f = q ∧ removable f = true)
                        (remaining s))) as [Hcan|Hcan]; simpl.
    + split.
      * intros [?|[Hin Hn]]; [by left|]. right. split; [by right|].
        rewrite <- (can_remove_filter data_dir (remaining s) p q); [done|].
        intros ->. done.
      * intros [?|[[-> |Hin]%elem_of_cons Hn]]; [by left|done|].
        right. split; [done|].
        rewrite (can_remove_filter data_dir (remaining s) p q); [done|].
        intros ->. done.
    + rewrite elem_of_app, list_elem_of_singleton, elem_of_cons. split.
      * intros [[?| ->]|[Hin Hn]]; [by left|right; by split; [left|]|].
        right. split; [by right|done].
      * intros [?|[[-> |Hin] Hn]]; [by left; left|by left; right|by right].
Qed.

(** X13: every path the first two loops mark names a [.json] entry of
    the directory, and no path is marked twice.  The third loop tries
    each marked path once: the count it reports and the number of
    failures it logs add up to the number of marked paths, and a marked
    path is among the failures exactly when [os.remove] fails on it.  A
    failure does not stop the loop. *)
Theorem X13_every_marked_path_is_removed_or_logged
    data_dir listing utcnow max_age_hours max_files_per_category :
  NoDup (path_in data_dir <$> listing) →
  let marked :=
    files_to_delete data_dir listing utcnow max_age_hours max_files_per_category in
  let s :=
    cleanup_old_files data_dir listing utcnow max_age_hours max_files_per_category in
  NoDup marked
  ∧ (∀ p, p ∈ marked → ∃ f, f ∈ listing ∧ is_json f ∧ path_in data_dir f = p)
  ∧ (deleted_count s + length (failed s) = length marked)%nat
  ∧ (∀ p, p ∈ failed s ↔ p ∈ marked ∧ ¬ can_remove data_dir listing p).
Proof.
  intros Hl marked s.
  assert (Hnd : NoDup marked) by (by apply files_to_delete_NoDup).
  split_and!; [done| | |].
  - intros p. apply marked_is_json_entry.
  - unfold s, cleanup_old_files. fold marked.
    rewrite remove_loop_accounting. simpl. lia.
  - intros p. unfold s, cleanup_old_files. fold marked.
    rewrite (remove_loop_failed data_dir marked Hnd). simpl. split.
    + intros [H|H]; [by apply elem_of_nil in H|done].
    + intros H. by right.
Qed.

Lemma X13_witness :
  let marked := files_to_delete DATA_DIR locked_cache (100 * hour) 24 5 in
  let s := cleanup_old_files DATA_DIR locked_cache (100 * hour) 24 5 in
  (failed s = [ "noaa_data/secondary_kp_20250219180000.json" ] ∧ deleted_count s = 1%nat)
  ∧ NoDup marked
  ∧ (∀ p, p ∈ marked → ∃ f, f ∈ locked_cache ∧ is_json f ∧ path_in DATA_DIR f = p)
  ∧ (deleted_count s + length (failed s) = length marked)%nat
  ∧ (∀ p, p ∈ failed s ↔ p ∈ marked ∧ ¬ can_remove DATA_DIR locked_cache p).
Proof.
  split; [by vm_compute|].
  apply (X13_every_marked_path_is_removed_or_logged DATA_DIR locked_cache (100 * hour) 24 5).
  by_evaluation.
Defined.

(** ** What the sweep leaves *)

Lemma not_doomed_not_json data_dir listing utcnow max_age_hours n f :
  NoDup (path_in data_dir <$> listing) →
  f ∈ listing → ¬ is_json f →
  path_in data_dir f ∉ files_to_delete data_dir listing utcnow max_age_hours n.
Proof.
  intros Hl Hf Hj (g & Hg & Hgj & Hp)%marked_is_json_entry.
  by rewrite (NoDup_fmap_eq (path_in data_dir) listing f g Hl Hf Hg) in Hj.
Qed.

Lemma filter_lengths {A : Type} (P : A → Prop) `{∀ x, Decision (P x)} (l : list A) :
  (length (filter P l) + length (filter (λ x, ¬ P x) l) = length l)%nat.
Proof. rewrite <- length_app. by rewrite filter_app_complement. Qed.

(** X14: the sweep only removes: what it leaves is the listing with
    some entries taken out, in the same order; an entry that is not a
    [.json] file is never taken out; and the count the sweep reports is
    the number of entries that are gone. *)
Theorem X14_sweep_only_removes_json_entries
    data_dir listing utcnow max_age_hours max_files_per_category :
  NoDup (path_in data_dir <$> listing) →
  let s :=
    cleanup_old_files data_dir listing utcnow max_age_hours max_files_per_category in
  remaining s `sublist_of` listing
  ∧ (∀ f, f ∈ listing → ¬ is_json f → f ∈ remaining s)
  ∧ filter (λ f, ¬ is_json f) (remaining s) = filter (λ f, ¬ is_json f) listing
  ∧ (deleted_count s + length (remaining s) = length listing)%nat.
Proof.
  intros Hl s.
  destruct (cleanup_spec data_dir listing utcnow max_age_hours max_files_per_category Hl)
    as [Hrem Hcount]. fold s in Hrem, Hcount.
  assert (Hstay : ∀ f, f ∈ listing → ¬ is_json f → f ∈ remaining s).
  { intros f Hf Hj. apply remaining_elem; [done|]. split; [done|].
    intros [Hm _]. revert Hm. by apply not_doomed_not_json. }
  split_and!; [| done | |].
  - rewrite Hrem. apply sublist_filter.
  - rewrite Hrem, list_filter_filter. apply filter_ext_in. intros f Hf.
    split; [by intros [? _]|]. intros Hj. split; [done|].
    intros [Hm _]. revert Hm. by apply not_doomed_not_json.
  - rewrite Hrem, Hcount. apply filter_lengths.
Qed.

Lemma X14_witness :
  let s := cleanup_old_files DATA_DIR cache (100 * hour) 24 2 in
  remaining s `sublist_of` cache
  ∧ (∀ f, f ∈ cache → ¬ is_json f → f ∈ remaining s)
  ∧ filter (λ f, ¬ is_json f) (remaining s) = filter (λ f, ¬ is_json f) cache
  ∧ (deleted_count s + length (remaining s) = length cache)%nat.
Proof.
  apply (X14_sweep_only_removes_json_entries DATA_DIR cache (100 * hour) 24 2).
  by_evaluation.
Defined.







(** * Further properties of one iteration of the fetch loop *)



(** X18: a directory-style endpoint whose resolution gives no URL is
    skipped: the iteration returns after the three requests of the
    resolver, none of them through the session; nothing is requested
    from the session, nothing is stored under the key, no file is
    written, and the last record of the log is the resolver's error for
    the key. *)
Theorem X18_unresolved_directory_is_skipped w category key p dir st st1 :
  PyStr.endswith p "/" = true →
  tertiary_path key = Some dir →
  get_latest_file_url w NOAA_BASE_URL key st = Returns None st1 →
  fetch_endpoint w category key (Path p) st = Returns tt st1
  ∧ trace st1 = trace st ++ resolver_requests NOAA_BASE_URL dir
  ∧ same_store st st1
  ∧ last (log st1) = Some (ERROR, No_latest_file_found key).
Proof.
  intros Hp Hdir Hnone.
  destruct (get_latest_file_url_facts w NOAA_BASE_URL key dir st Hdir)
    as (result & s' & n & Hret & Hn & Ht & Hs & Hlast & _).
  rewrite Hnone in Hret. injection Hret as <- <-.
  destruct (Hlast eq_refl) as [-> Hlog].
  split_and!; try done.
  unfold fetch_endpoint, resolve_endpoint. by rewrite Hp, Hnone.
Qed.

Lemma X18_witness :
  let st1 := final_state (get_latest_file_url always_404 NOAA_BASE_URL
                            "electric_field_us_canada" initial_state) in
  fetch_endpoint always_404 "tertiary" "electric_field_us_canada"
    (Path "lists/rgeojson/US-Canada-1D/") initial_state = Returns tt st1
  ∧ trace st1 = trace initial_state
                ++ resolver_requests NOAA_BASE_URL "lists/rgeojson/US-Canada-1D/"
  ∧ same_store initial_state st1
  ∧ last (log st1) = Some (ERROR, No_latest_file_found "electric_field_us_canada").
Proof.
  apply (X18_unresolved_directory_is_skipped always_404 "tertiary"
           "electric_field_us_canada" "lists/rgeojson/US-Canada-1D/"
           "lists/rgeojson/US-Canada-1D/" initial_state); reflexivity.
Defined.
